(** * GRoot: a shallow embedding of src/g-root.mjs

    GRoot keeps a repository under [.groot/]: a directory of objects named
    by the SHA-1 digest of their text, and three metadata files, [HEAD],
    [index] and [stash].  Every command of the tool is a short sequence of
    file reads and writes followed by console output.  The embedding keeps
    that shape: a command is a computation in a small monad that threads the
    repository, records every write and every printed line in a trace, and
    may end with a thrown error.

    The embedding covers an initialised repository: the [index] and [stash]
    files exist and hold what the tool wrote, and a write to disk succeeds.
    The working tree is an input: [add] takes the text read from the file,
    [status] the files [getAllFiles] lists with their texts. *)

From Stdlib Require Import Ascii.
From stdpp Require Import gmap strings list fin_maps.

(** ** Data model *)

(** An element of the [index] array: [{ path: filePath, hash: fileHash }]. *)
Record IndexEntry := mkEntry { path : string; hash : string }.

(** The object built by [commit].  [parent] is what [getCurrentHead]
    returned: the text of the [HEAD] file, or [undefined] ([None]) when the
    file could not be read. *)
Record Commit := mkCommit {
  timeStamp : string;
  message : string;
  files : list IndexEntry;
  parent : option string
}.

(** An element of the [stash] array: [{ timeStamp, files: index }]. *)
Record StashEntry := mkStash {
  stash_timeStamp : string;
  stash_files : list IndexEntry
}.

#[global] Instance IndexEntry_eq_dec : EqDecision IndexEntry.
Proof. solve_decision. Defined.
#[global] Instance Commit_eq_dec : EqDecision Commit.
Proof. solve_decision. Defined.
#[global] Instance StashEntry_eq_dec : EqDecision StashEntry.
Proof. solve_decision. Defined.

(** The files below [.groot/].  [objects] maps the name of a file in
    [.groot/objects/] to its text; blobs and commit records share it, and a
    name is looked up as it stands (no [..] or [/] is resolved in it; where
    a property is about a name WITHOUT object it takes the name to be an
    [object_name], for which the two agree).  The
    [index] and [stash] files hold JSON arrays of records of strings and are
    kept as the arrays they hold.  [HEAD] is [None] when the file is missing. *)
Record Repo := mkRepo {
  objects : gmap string string;
  HEAD : option string;
  index : list IndexEntry;
  stash : list StashEntry
}.

(** What [init] leaves in a fresh directory: no object, an empty [HEAD],
    and [JSON.stringify([])] in [index] and [stash]. *)
Definition init : Repo :=
  {| objects := ∅; HEAD := Some ""; index := []; stash := [] |}.

(** ** Values of the JavaScript runtime *)

(** Truthiness of a value that is a string or [undefined]/[null]. *)
Definition truthy (v : option string) : bool :=
  match v with
  | Some s => bool_decide (s ≠ "")
  | None => false
  end.

(** The value [JSON.parse] yields on the text of an object, as far as the
    commands look at it.  [JOther] stands for every JSON value that is
    neither [null] nor an object of the shape [commit] writes; what a
    command does with such a value depends on the value and is not
    followed here. *)
Inductive JSON :=
| JSyntaxError
| JNull
| JCommit (c : Commit)
| JOther.

(** A repository is the outcome of a sequence of commands that write:
    [add] of a file with the text read from it, [commit] and [stash] with
    the time they are run at. *)
Inductive command :=
| Add (fileToBeAdded fileData : string)
| CommitCmd (message now : string)
| StashCmd (now : string).

(** One element of the array returned by [diffLines]. *)
Record Change := mkChange { added : bool; removed : bool; value : string }.

(** ** Effects *)

Inductive colour := green | red | grey.

Inductive event :=
| Console (line : string)
| Stdout (text : string)
| WriteObject (digest text : string)
| WriteHEAD (digest : string)
| WriteIndex (entries : list IndexEntry)
| WriteStash (entries : list StashEntry).

Inductive error :=
| ENOENT (file : string)
| TypeError
| SyntaxError
| Unmodelled.

(** How a command ends: it returns, it throws, or (for the loop of [log],
    which is run with a bound on its iterations) it is still running. *)
Inductive result (A : Type) :=
| Returned (a : A)
| Thrown (e : error)
| Running.
Arguments Returned {A} a.
Arguments Thrown {A} e.
Arguments Running {A}.

Definition M (A : Type) : Type := Repo → Repo * list event * result A.

#[global] Instance M_ret : MRet M := λ A a st, (st, [], Returned a).

#[global] Instance M_bind : MBind M := λ A B f m st,
  match m st with
  | (st1, t1, Returned a) =>
      match f a st1 with (st2, t2, r) => (st2, t1 ++ t2, r) end
  | (st1, t1, Thrown e) => (st1, t1, Thrown e)
  | (st1, t1, Running) => (st1, t1, Running)
  end.

Definition throw {A} (e : error) : M A := λ st, (st, [], Thrown e).

Definition emit (e : event) : M unit := λ st, (st, [e], Returned tt).

(** [try { m } catch (error) { h }] *)
Definition try_catch {A} (m : M A) (h : M A) : M A := λ st,
  match m st with
  | (st1, t1, Thrown _) =>
      match h st1 with (st2, t2, r) => (st2, t1 ++ t2, r) end
  | other => other
  end.

(** [for (const x of l) { body }] *)
Fixpoint for_of {A} (l : list A) (body : A → M unit) : M unit :=
  match l with
  | [] => mret tt
  | x :: l' => body x;; for_of l' body
  end.

(** *** File system calls *)

Definition console_log (s : string) : M unit := emit (Console s).

Definition readObject (digest : string) : M string := λ st,
  match objects st !! digest with
  | Some text => (st, [], Returned text)
  | None => (st, [], Thrown (ENOENT digest))
  end.

Definition readHEAD : M string := λ st,
  match HEAD st with
  | Some text => (st, [], Returned text)
  | None => (st, [], Thrown (ENOENT "HEAD"))
  end.

Definition readIndex : M (list IndexEntry) := λ st, (st, [], Returned (index st)).

Definition readStash : M (list StashEntry) := λ st, (st, [], Returned (stash st)).

Definition writeObject (digest text : string) : M unit := λ st,
  (mkRepo (<[digest := text]> (objects st)) (HEAD st) (index st) (stash st),
   [WriteObject digest text], Returned tt).

Definition writeHEAD (digest : string) : M unit := λ st,
  (mkRepo (objects st) (Some digest) (index st) (stash st),
   [WriteHEAD digest], Returned tt).

Definition writeIndex (entries : list IndexEntry) : M unit := λ st,
  (mkRepo (objects st) (HEAD st) entries (stash st),
   [WriteIndex entries], Returned tt).

Definition writeStash (entries : list StashEntry) : M unit := λ st,
  (mkRepo (objects st) (HEAD st) (index st) entries,
   [WriteStash entries], Returned tt).

(** *** Objects as dictionaries

    [status] builds two dictionaries from [{}] with [acc[key] = value] and
    reads them with [acc[key]].  A key that is no own property is looked up
    in [Object.prototype]; an assignment to ["__proto__"] with a string
    value stores nothing. *)
Definition Object_prototype : list string :=
  ["constructor"; "__defineGetter__"; "__defineSetter__"; "hasOwnProperty";
   "__lookupGetter__"; "__lookupSetter__"; "isPrototypeOf";
   "propertyIsEnumerable"; "toString"; "valueOf"; "__proto__";
   "toLocaleString"].

Inductive property :=
| Undefined
| Str (s : string)
| Inherited (key : string).

#[global] Instance property_eq_dec : EqDecision property.
Proof. solve_decision. Defined.

Definition obj_set (o : gmap string string) (key val : string) : gmap string string :=
  if bool_decide (key = "__proto__") then o else <[key := val]> o.

Definition obj_get (o : gmap string string) (key : string) : property :=
  match o !! key with
  | Some v => Str v
  | None => if bool_decide (key ∈ Object_prototype) then Inherited key else Undefined
  end.

Definition property_truthy (v : property) : bool :=
  match v with
  | Undefined => false
  | Str s => bool_decide (s ≠ "")
  | Inherited _ => true
  end.

(** The line feed of a template literal. *)
Definition LF : string := String (Ascii.ascii_of_nat 10) "".

(** ** A small runtime to run the commands on

    The commands take the library functions they call as parameters.  To
    evaluate them on concrete repositories this section fixes stand-ins: a
    40 digit checksum for the digest and a length-prefixed text for the
    record, with its reader. *)
Module Demo.

Definition hex_digit (n : N) : ascii :=
  match n with
  | 0%N => "0" | 1%N => "1" | 2%N => "2" | 3%N => "3" | 4%N => "4"
  | 5%N => "5" | 6%N => "6" | 7%N => "7" | 8%N => "8" | 9%N => "9"
  | 10%N => "a" | 11%N => "b" | 12%N => "c" | 13%N => "d" | 14%N => "e"
  | _ => "f"
  end%char.

Fixpoint hex (digits : nat) (x : N) : string :=
  match digits with
  | O => ""
  | S d => String (hex_digit (x mod 16)) (hex d (x / 16))
  end.

Fixpoint checksum (s : string) (acc : N) : N :=
  match s with
  | EmptyString => acc
  | String c s' => checksum s' ((acc * 257 + N_of_ascii c + 1) mod (16 ^ 40))%N
  end.

Definition hashObject (content : string) : string := hex 40 (checksum content 0).

(** A string as a run of [1]s of its length, a [0], and its characters. *)
Fixpoint tally (n : nat) (rest : string) : string :=
  match n with
  | O => String "0" rest
  | S n' => String "1" (tally n' rest)
  end.

Definition put_string (s rest : string) : string :=
  tally (String.length s) (s +:+ rest).

Definition put_entry (e : IndexEntry) (rest : string) : string :=
  put_string (path e) (put_string (hash e) rest).

Definition put_entries (l : list IndexEntry) (rest : string) : string :=
  tally (length l) (foldr put_entry rest l).

Definition put_parent (p : option string) (rest : string) : string :=
  match p with
  | Some d => String "=" (put_string d rest)
  | None => String "-" rest
  end.

Definition JSON_stringify (c : Commit) : string :=
  String "{"
    (put_string (timeStamp c)
       (put_string (message c)
          (put_entries (files c) (put_parent (parent c) "}")))).

Fixpoint get_tally (s : string) : option (nat * string) :=
  match s with
  | String "0" rest => Some (O, rest)
  | String "1" s' =>
      match get_tally s' with
      | Some (n, rest) => Some (S n, rest)
      | None => None
      end
  | _ => None
  end.

Fixpoint take (n : nat) (s : string) : option (string * string) :=
  match n with
  | O => Some ("", s)
  | S n' =>
      match s with
      | String c s' =>
          match take n' s' with
          | Some (t, rest) => Some (String c t, rest)
          | None => None
          end
      | EmptyString => None
      end
  end.

Definition get_string (s : string) : option (string * string) :=
  match get_tally s with
  | Some (n, rest) => take n rest
  | None => None
  end.

Definition get_entry (s : string) : option (IndexEntry * string) :=
  match get_string s with
  | Some (p, s1) =>
      match get_string s1 with
      | Some (h, s2) => Some (mkEntry p h, s2)
      | None => None
      end
  | None => None
  end.

Fixpoint get_n_entries (n : nat) (s : string) : option (list IndexEntry * string) :=
  match n with
  | O => Some ([], s)
  | S n' =>
      match get_entry s with
      | Some (e, s1) =>
          match get_n_entries n' s1 with
          | Some (l, s2) => Some (e :: l, s2)
          | None => None
          end
      | None => None
      end
  end.

Definition get_entries (s : string) : option (list IndexEntry * string) :=
  match get_tally s with
  | Some (n, rest) => get_n_entries n rest
  | None => None
  end.

Definition get_parent (s : string) : option (option string * string) :=
  match s with
  | String "=" s' =>
      match get_string s' with
      | Some (d, rest) => Some (Some d, rest)
      | None => None
      end
  | String "-" rest => Some (None, rest)
  | _ => None
  end.

Definition get_commit (s : string) : option Commit :=
  match s with
  | String "{" s0 =>
      match get_string s0 with
      | Some (ts, s1) =>
          match get_string s1 with
          | Some (msg, s2) =>
              match get_entries s2 with
              | Some (fs, s3) =>
                  match get_parent s3 with
                  | Some (p, "}") => Some (mkCommit ts msg fs p)
                  | _ => None
                  end
              | None => None
              end
          | None => None
          end
      | None => None
      end
  | _ => None
  end.

(** The reader: the text [null], a record, or a syntax error. *)
Definition JSON_parse (text : string) : JSON :=
  if bool_decide (text = "null") then JNull
  else match get_commit text with
       | Some c => JCommit c
       | None => JSyntaxError
       end.

(** Colours switched off, as when the output is no terminal. *)
Definition chalk (c : colour) (s : string) : string := s.

(** A comparison of the whole texts: one unchanged part when they agree,
    else the old text removed and the new one added. *)
Definition diffLines (old new : string) : list Change :=
  if bool_decide (old = new) then [mkChange false false new]
  else [mkChange false true old; mkChange true false new].

(** Two commits: [a.txt] in the first, the new file [b.txt] in the
    second. *)
Definition history : list command :=
  [Add "a.txt" "hello"; CommitCmd "first" "2024-01-01T00:00:00.000Z";
   Add "b.txt" "hi"; CommitCmd "second" "2024-01-02T00:00:00.000Z"].

Definition first_commit : Commit :=
  mkCommit "2024-01-01T00:00:00.000Z" "first"
           [mkEntry "a.txt" (hashObject "hello")] (Some "").

Definition second_commit : Commit :=
  mkCommit "2024-01-02T00:00:00.000Z" "second"
           [mkEntry "b.txt" (hashObject "hi")]
           (Some (hashObject (JSON_stringify first_commit))).

(** The repository the two commits leave. *)
Definition repo : Repo :=
  mkRepo (<[hashObject (JSON_stringify second_commit) := JSON_stringify second_commit]>
            (<[hashObject "hi" := "hi"]>
               (<[hashObject (JSON_stringify first_commit) := JSON_stringify first_commit]>
                  (<[hashObject "hello" := "hello"]> ∅))))
         (Some (hashObject (JSON_stringify second_commit))) [] [].

End Demo.

(** ** The directory around the repository *)

(** The files of [.groot/] as [init] finds them; each may be missing. *)
Record Disk := mkDisk {
  objects_dir : option (gmap string string);
  HEAD_file : option string;
  index_file : option (list IndexEntry);
  stash_file : option (list StashEntry)
}.

(** [init()], where [grootignore] is the text of [.grootignore] when that
    file can be read.  [mkdir] with [recursive] accepts a directory that is
    there; a write with the flag [wx] fails on a file that is there, and the
    outer [catch] then ends the method; [mkdir] itself is taken to succeed.
    The second component is what was added to [ignoreManager]. *)
Definition GRoot_init (grootignore : option string) (d : Disk) : Disk * option string :=
  let objs := Some (default ∅ (objects_dir d)) in
  match HEAD_file d with
  | Some _ => (mkDisk objs (HEAD_file d) (index_file d) (stash_file d), None)
  | None =>
      match index_file d with
      | Some _ => (mkDisk objs (Some "") (index_file d) (stash_file d), None)
      | None =>
          match stash_file d with
          | Some _ => (mkDisk objs (Some "") (Some []) (stash_file d), None)
          | None => (mkDisk objs (Some "") (Some []) (Some []), grootignore)
          end
      end
  end.

(** The repository the commands work on, once all of it is there. *)
Definition repo_of (d : Disk) : option Repo :=
  match objects_dir d, index_file d, stash_file d with
  | Some objs, Some idx, Some sts => Some (mkRepo objs (HEAD_file d) idx sts)
  | _, _, _ => None
  end.

(** A directory as [readdir], [stat] and [readFile] show it: a file with
    its text, or a directory with its entries in the order [readdir] lists
    them. *)
#[warnings="-register-all"]
Inductive tree :=
| File (text : string)
| Dir (entries : list (string * tree)).

(** [path.join(dir, file)] for the name of a directory entry. *)
Definition path_join (dir file : string) : string :=
  if bool_decide (dir = ".") then file else dir +:+ "/" +:+ file.

(** The digits of a hex digest. *)
Definition hex_char (c : ascii) : bool :=
  existsb (Ascii.eqb c) (String.list_ascii_of_string "0123456789abcdef").

Fixpoint all_hex (s : string) : bool :=
  match s with
  | EmptyString => true
  | String c s' => hex_char c && all_hex s'
  end.

(** A name of the kind [hashObject] produces: hex digits, at least one, and
    no more than a file name may have.  For such a name
    [path.join(objectsPath, name)] is the entry [name] of [.groot/objects/],
    so that a name without object is a file that is not there.  A name with
    [/] or [..] in it leads [path.join] elsewhere; what a read of it finds
    is not followed here. *)
Definition object_name (name : string) : Prop :=
  name ≠ "" ∧ String.length name ≤ 255 ∧ all_hex name = true.

(** Whether a trace entry is output; the others are writes. *)
Definition is_output (e : event) : Prop :=
  match e with
  | Console _ | Stdout _ => True
  | _ => False
  end.

(** A computation that leaves the repository as it is and only prints. *)
Definition read_only {A} (m : M A) : Prop :=
  ∀ st, (m st).1.1 = st ∧ Forall is_output (m st).1.2.

(** *** More small inputs *)

(** A directory with a nested folder and a folder of build output. *)
Definition project : list (string * tree) :=
  [("a.txt", File "hello");
   ("build", Dir [("out.js", File "x")]);
   ("src", Dir [("main.js", File "code"); ("lib", Dir [("util.js", File "u")])])].

(** A store in which a commit names itself as parent. *)
Definition looping : Repo :=
  mkRepo (<["loop" := Demo.JSON_stringify
                        (mkCommit "2024-01-01T00:00:00.000Z" "again" [] (Some "loop"))]> ∅)
         (Some "loop") [] [].

(** The repository of [Demo.repo] with the record of the first commit
    removed. *)
Definition orphaned : Repo :=
  mkRepo (delete (Demo.hashObject (Demo.JSON_stringify Demo.first_commit))
                 (objects Demo.repo))
         (HEAD Demo.repo) [] [].

(** [Demo.repo] with [a.txt] staged again. *)
Definition restaged : Repo :=
  mkRepo (objects Demo.repo) (HEAD Demo.repo)
         [mkEntry "a.txt" (Demo.hashObject "hello")] [].

(** ** The commands *)

Section GRoot.

(** The library functions the tool calls: the SHA-1 hex digest of [crypto],
    [JSON.stringify] on a commit record, [JSON.parse], [diffLines], and the
    colouring of [chalk]. *)
Variable hashObject : string → string.
Variable JSON_stringify : Commit → string.
Variable JSON_parse : string → JSON.
Variable diffLines : string → string → list Change.
Variable chalk : colour → string → string.

(** [JSON.parse(v)] for [v] a text or [null]; [null] is read as the text
    ["null"]. *)
Definition parse (v : option string) : M JSON :=
  match v with
  | None => mret JNull
  | Some text =>
      match JSON_parse text with
      | JSyntaxError => throw SyntaxError
      | j => mret j
      end
  end.

(** Reading a property of a parsed value. *)
Definition record (v : JSON) : M Commit :=
  match v with
  | JCommit c => mret c
  | JNull => throw TypeError
  | JSyntaxError => throw SyntaxError
  | JOther => throw Unmodelled
  end.

(** [add(fileToBeAdded)], where [fileData] is the text read from the file;
    the second half is [updateStagingArea(fileToBeAdded, fileHash)]. *)
Definition add (fileToBeAdded fileData : string) : M unit :=
  let fileHash := hashObject fileData in
  writeObject fileHash fileData;;
  index ← readIndex;
  writeIndex (index ++ [mkEntry fileToBeAdded fileHash]).

(** [getCurrentHead()] *)
Definition getCurrentHead : M (option string) :=
  try_catch (text ← readHEAD; mret (Some text)) (mret None).

(** [commit(message)], where [now] is [new Date().toISOString()]. *)
Definition commit (message now : string) : M unit :=
  index ← readIndex;
  parentCommit ← getCurrentHead;
  let commitData := mkCommit now message index parentCommit in
  let commitHash := hashObject (JSON_stringify commitData) in
  writeObject commitHash (JSON_stringify commitData);;
  writeHEAD commitHash;;
  writeIndex [];;
  console_log ("Commit successfully created: " +:+ commitHash).

(** The line [log] prints for a commit. *)
Definition log_line (currentCommitHash : string) (commitData : Commit) : string :=
  "Commit: " +:+ currentCommitHash +:+ LF +:+ "Date: " +:+ timeStamp commitData
    +:+ LF +:+ LF +:+ message commitData.

(** The loop of [log], run for at most [fuel] iterations. *)
Fixpoint log_loop (fuel : nat) (currentCommitHash : option string) : M unit :=
  if truthy currentCommitHash then
    match fuel with
    | O => λ st, (st, [], Running)
    | S fuel' =>
        text ← readObject (default "" currentCommitHash);
        v ← parse (Some text);
        commitData ← record v;
        console_log (log_line (default "" currentCommitHash) commitData);;
        log_loop fuel' (parent commitData)
    end
  else mret tt.

(** [log()] *)
Definition log (fuel : nat) : M unit :=
  currentCommitHash ← getCurrentHead;
  log_loop fuel currentCommitHash.

(** [getCommitData(commitHash)]; the [catch] prints the [error] property of
    a string, which is [undefined]. *)
Definition getCommitData (commitHash : string) : M (option string) :=
  try_catch (text ← readObject commitHash; mret (Some text))
            (console_log "undefined";; mret None).

(** [getFileContent(fileHash)] *)
Definition getFileContent (fileHash : string) : M string := readObject fileHash.

(** [getParentFileContent(parentCommitData, filePath)]; [None] is
    [undefined]. *)
Definition getParentFileContent (parentCommitData : Commit) (filePath : string)
  : M (option string) :=
  match List.find (λ file, bool_decide (path file = filePath)) (files parentCommitData) with
  | Some parentFile =>
      content ← getFileContent (hash parentFile);
      mret (Some content)
  | None => mret None
  end.

(** The callback of [diff.forEach]. *)
Definition show_part (part : Change) : M unit :=
  (if added part then emit (Stdout (chalk green ("+++ " +:+ value part)))
   else if removed part then emit (Stdout (chalk red ("--- " +:+ value part)))
   else emit (Stdout (chalk grey (value part))));;
  console_log "".

(** The body of the loop of [showCommitDiff] over [commitData.files]. *)
Definition show_file (commitData : Commit) (file : IndexEntry) : M unit :=
  console_log ("File: " +:+ path file);;
  fileContent ← getFileContent (hash file);
  console_log fileContent;;
  if truthy (parent commitData) then
    text ← getCommitData (default "" (parent commitData));
    v ← parse text;
    parentCommitData ← record v;
    parentFileContent ← getParentFileContent parentCommitData (path file);
    match parentFileContent with
    | Some parentContent =>
        console_log (LF +:+ "Diff:");;
        for_of (diffLines parentContent fileContent) show_part
    | None => console_log "New files in this commit"
    end
  else console_log "First Commit".

(** [showCommitDiff(commitHash)] *)
Definition showCommitDiff (commitHash : string) : M unit :=
  text ← getCommitData commitHash;
  v ← parse text;
  match v with
  | JNull => console_log "Commit not found"
  | _ =>
      commitData ← record v;
      console_log "Changes in the last commit are: ";;
      for_of (files commitData) (show_file commitData)
  end.

(** The test of the loop under "Changes not staged for commit". *)
Definition not_staged (index : list IndexEntry)
    (headFiles currentFileHashes : gmap string string) (file : string) : bool :=
  negb (bool_decide (is_Some (List.find (λ stagedFile, bool_decide (path stagedFile = file)) index)))
  && bool_decide (obj_get headFiles file ≠ obj_get currentFileHashes file).

(** The test of the loop under "Untracked files". *)
Definition untracked (index : list IndexEntry)
    (headFiles : gmap string string) (file : string) : bool :=
  negb (bool_decide (is_Some (List.find (λ stagedFile, bool_decide (path stagedFile = file)) index)))
  && negb (property_truthy (obj_get headFiles file)).

(** [status()], where [worktree] lists the files [getAllFiles(".")] returns
    with the text read from each. *)
Definition status (worktree : list (string * string)) : M unit :=
  index ← readIndex;
  headCommitHash ← getCurrentHead;
  headCommitFiles ←
    (if truthy headCommitHash then
       text ← getCommitData (default "" headCommitHash);
       v ← parse text;
       headCommitData ← record v;
       mret (files headCommitData)
     else mret []);
  let headFiles :=
    foldl (λ acc file, obj_set acc (path file) (hash file)) ∅ headCommitFiles in
  let currentFiles := worktree.*1 in
  let currentFileHashes :=
    foldl (λ acc file, obj_set acc file.1 (hashObject file.2)) ∅ worktree in
  console_log "Changes to be committed:";;
  for_of index (λ file,
    console_log ("  " +:+ chalk green "modified" +:+ ": " +:+ path file));;
  console_log (LF +:+ "Changes not staged for commit:");;
  for_of currentFiles (λ file,
    if not_staged index headFiles currentFileHashes file
    then console_log ("  " +:+ chalk red "modified" +:+ ": " +:+ file)
    else mret tt);;
  console_log (LF +:+ "Untracked files:");;
  for_of currentFiles (λ file,
    if untracked index headFiles file
    then console_log ("  " +:+ chalk red "new file" +:+ ": " +:+ file)
    else mret tt).

(** [stash()], where [now] is [new Date().toISOString()]. *)
Definition stash_command (now : string) : M unit :=
  index ← readIndex;
  stash ← readStash;
  writeStash (stash ++ [mkStash now index]);;
  writeIndex [];;
  console_log "Changes stashed successfully.".

(** *** Histories *)

Definition run_command (c : command) : M unit :=
  match c with
  | Add file data => add file data
  | CommitCmd message now => commit message now
  | StashCmd now => stash_command now
  end.

Definition run (cmds : list command) : M unit := for_of cmds run_command.

Definition repo_after (cmds : list command) (st : Repo) : Repo := (run cmds st).1.1.

Definition trace_of (cmds : list command) (st : Repo) : list event := (run cmds st).1.2.

Definition is_commit (c : command) : bool :=
  match c with CommitCmd _ _ => true | _ => false end.

(** The texts a trace writes into [.groot/objects/]. *)
Definition written (t : list event) : list string :=
  omap (λ e, match e with WriteObject _ text => Some text | _ => None end) t.

(** No two different texts of [l] have the same digest. *)
Definition collision_free (l : list string) : Prop :=
  Forall (λ x, Forall (λ y, hashObject x = hashObject y → x = y) l) l.

#[global] Instance collision_free_dec l : Decision (collision_free l).
Proof. unfold collision_free. apply _. Defined.

(** The commits a sequence of commands creates, oldest first, each with
    the digest it is stored under. *)
Fixpoint commits_made (cmds : list command) (st : Repo) : list (string * Commit) :=
  match cmds with
  | [] => []
  | c :: cs =>
      match c with
      | CommitCmd message now =>
          let commitData := mkCommit now message (index st) (HEAD st) in
          [(hashObject (JSON_stringify commitData), commitData)]
      | _ => []
      end ++ commits_made cs (run_command c st).1.1
  end.

(** [chain objs h l]: following [parent] from the digest [h] through the
    objects [objs] visits the records of [l] in turn and ends on a value
    that is no digest. *)
Inductive chain (objs : gmap string string) : option string → list (string * Commit) → Prop :=
| chain_end h : truthy h = false → chain objs h []
| chain_step d c l :
    d ≠ "" →
    objs !! d = Some (JSON_stringify c) →
    chain objs (parent c) l →
    chain objs (Some d) ((d, c) :: l).

(** Every object is a text of [texts], stored under its digest. *)
Definition content_addressed (objs : gmap string string) (texts : list string) : Prop :=
  ∀ k v, objs !! k = Some v → k = hashObject v ∧ v ∈ texts.

(** What [diff.forEach] prints for the parts of a diff. *)
Definition part_events (part : Change) : list event :=
  [Stdout (if added part then chalk green ("+++ " +:+ value part)
           else if removed part then chalk red ("--- " +:+ value part)
           else chalk grey (value part));
   Console ""].

(** The lookup of a path in a commit as the specification words it: the
    last entry of [files] with that path decides. *)
Definition resolveFileAt_last (c : Commit) (filePath : string) : M (option string) :=
  match last (filter (λ file, path file = filePath) (files c)) with
  | Some entry =>
      content ← getFileContent (hash entry);
      mret (Some content)
  | None => mret None
  end.

(** *** Small repositories to run the commands on *)

(** A commit made after two [add]s of the same path, and the two blobs. *)
Definition twice_added : Commit :=
  mkCommit "2024-01-01T00:00:00.000Z" "m"
           [mkEntry "a.txt" "h1"; mkEntry "a.txt" "h2"] (Some "").

Definition two_blobs : Repo :=
  mkRepo (<["h1" := "hello"]> (<["h2" := "world"]> ∅)) (Some "") [] [].

(** A repository whose [HEAD] names an object that is not there. *)
Definition dangling : Repo := mkRepo ∅ (Some "abc") [] [].

(** *** Listing and adding the working tree *)

(** [ignoreManager.ignores] on the path of an entry relative to the working
    directory, which for a listing that starts at ["."] is the joined path
    itself. *)
Variable ignores : string → bool.

(** What the loop of [getAllFiles] does with the entry at [filePath]: a
    file is pushed on [allFiles], a directory is listed by the recursive
    call, whose loop over [files] is the inner [fix]. *)
Fixpoint getAllFiles_entry (filePath : string) (node : tree) (allFiles : list string)
    {struct node} : list string :=
  match node with
  | File _ => allFiles ++ [filePath]
  | Dir files =>
      (fix loop (files : list (string * tree)) (allFiles : list string) : list string :=
         match files with
         | [] => allFiles
         | (file, child) :: files' =>
             if ignores (path_join filePath file) then loop files' allFiles
             else loop files' (getAllFiles_entry (path_join filePath file) child allFiles)
         end) files allFiles
  end.

(** [getAllFiles(dir, allFiles)], where [files] is what [readdir(dir)]
    lists. *)
Definition getAllFiles (dir : string) (files : list (string * tree))
    (allFiles : list string) : list string :=
  getAllFiles_entry dir (Dir files) allFiles.

(** The same walk, keeping with each path the text [readFile] returns for
    it. *)
Fixpoint worktree_entry (filePath : string) (node : tree)
    (allFiles : list (string * string)) {struct node} : list (string * string) :=
  match node with
  | File text => allFiles ++ [(filePath, text)]
  | Dir files =>
      (fix loop (files : list (string * tree)) (allFiles : list (string * string))
         : list (string * string) :=
         match files with
         | [] => allFiles
         | (file, child) :: files' =>
             if ignores (path_join filePath file) then loop files' allFiles
             else loop files' (worktree_entry (path_join filePath file) child allFiles)
         end) files allFiles
  end.

Definition worktree_of (dir : string) (files : list (string * tree))
    (allFiles : list (string * string)) : list (string * string) :=
  worktree_entry dir (Dir files) allFiles.

(** The number of files below a directory. *)
Fixpoint count_files (node : tree) : nat :=
  match node with
  | File _ => 1
  | Dir files =>
      (fix sum (files : list (string * tree)) : nat :=
         match files with
         | [] => 0
         | (_, child) :: files' => count_files child + sum files'
         end) files
  end.

(** [addAll()], where [root] is the working directory. *)
Definition addAll (root : list (string * tree)) : M unit :=
  for_of (worktree_of "." root []) (λ file, add file.1 file.2).

(** *** What [status] compares *)

(** [headFiles] and [currentFileHashes] as [status] builds them. *)
Definition headFiles_of (headCommitFiles : list IndexEntry) : gmap string string :=
  foldl (λ acc file, obj_set acc (path file) (hash file)) ∅ headCommitFiles.

Definition currentFileHashes_of (worktree : list (string * string)) : gmap string string :=
  foldl (λ acc file, obj_set acc file.1 (hashObject file.2)) ∅ worktree.

(** The files of the commit of [HEAD] as [status] reads them: none for an
    empty [HEAD], else those of the record [HEAD] names. *)
Inductive head_files (st : Repo) : list IndexEntry → Prop :=
| head_files_none : truthy (HEAD st) = false → head_files st []
| head_files_commit h text c :
    HEAD st = Some h → h ≠ "" →
    objects st !! h = Some text →
    JSON_parse text = JCommit c →
    head_files st (files c).

(** What [status] prints, given the three lists it compares. *)
Definition status_report (index headCommitFiles : list IndexEntry)
    (worktree : list (string * string)) : list event :=
  [Console "Changes to be committed:"]
  ++ map (λ file, Console ("  " +:+ chalk green "modified" +:+ ": " +:+ path file)) index
  ++ [Console (LF +:+ "Changes not staged for commit:")]
  ++ map (λ file, Console ("  " +:+ chalk red "modified" +:+ ": " +:+ file))
       (List.filter (not_staged index (headFiles_of headCommitFiles)
                       (currentFileHashes_of worktree)) worktree.*1)
  ++ [Console (LF +:+ "Untracked files:")]
  ++ map (λ file, Console ("  " +:+ chalk red "new file" +:+ ": " +:+ file))
       (List.filter (untracked index (headFiles_of headCommitFiles)) worktree.*1).

(** The hash [headFiles] holds for a path: that of the last entry with the
    path. *)
Definition head_hash (headCommitFiles : list IndexEntry) (file : string) : option string :=
  hash <$> last (filter (λ e, path e = file) headCommitFiles).

(** *** Walks and histories *)

(** [walk objs h l e]: following [parent] from [h] through [objs] visits
    the records of [l] and arrives at [e], which may be anything. *)
Inductive walk (objs : gmap string string)
  : option string → list (string * Commit) → option string → Prop :=
| walk_here h : walk objs h [] h
| walk_step d c l e :
    d ≠ "" →
    objs !! d = Some (JSON_stringify c) →
    walk objs (parent c) l e →
    walk objs (Some d) ((d, c) :: l) e.

(** The index a sequence of commands leaves: the entries added since the
    last [commit] or [stash]. *)
Fixpoint pending (cmds : list command) (index : list IndexEntry) : list IndexEntry :=
  match cmds with
  | [] => index
  | Add file data :: cs => pending cs (index ++ [mkEntry file (hashObject data)])
  | _ :: cs => pending cs []
  end.

Definition is_stash (c : command) : bool :=
  match c with StashCmd _ => true | _ => false end.

(** Every entry of [l] names an object that is there. *)
Definition resolves (objs : gmap string string) (l : list IndexEntry) : Prop :=
  Forall (λ e, is_Some (objs !! hash e)) l.

(** ** Properties *)

(** What is assumed of the library functions where a property needs it:
    a SHA-1 hex digest has 40 digits, and [JSON.parse] reads back the record
    [JSON.stringify] wrote. *)
Hypothesis digest_length : ∀ text, String.length (hashObject text) = 40.
Hypothesis parse_stringify : ∀ c, JSON_parse (JSON_stringify c) = JCommit c.

Lemma digest_nonempty text : hashObject text ≠ "".
Proof using digest_length.
  intros E. pose proof (digest_length text) as L. rewrite E in L. discriminate L.
Qed.

Lemma truthy_Some (s : string) : s ≠ "" → truthy (Some s) = true.
Proof. intros H. unfold truthy. by apply bool_decide_eq_true. Qed.

Lemma truthy_digest text : truthy (Some (hashObject text)) = true.
Proof using digest_length.
  simpl. apply bool_decide_eq_true. apply digest_nonempty.
Qed.

(** *** Running a computation step by step *)

Lemma bind_silent {A B} (m : M A) (f : A → M B) st a :
  m st = (st, [], Returned a) → (m ≫= f) st = f a st.
Proof.
  intros E. unfold mbind, M_bind. rewrite E.
  destruct (f a st) as [[st2 t2] r]. reflexivity.
Qed.

Lemma bind_thrown {A B} (m : M A) (f : A → M B) st st1 t1 e :
  m st = (st1, t1, Thrown e) → (m ≫= f) st = (st1, t1, Thrown e).
Proof. intros E. unfold mbind, M_bind. rewrite E. reflexivity. Qed.

Lemma bind_emit {B} (e : event) (f : unit → M B) st :
  (emit e ≫= f) st = ((f tt st).1.1, e :: (f tt st).1.2, (f tt st).2).
Proof.
  unfold mbind, M_bind, emit. destruct (f tt st) as [[st2 t2] r]. reflexivity.
Qed.

Lemma bind_returned {A B} (m : M A) (f : A → M B) st st1 t1 a :
  m st = (st1, t1, Returned a) →
  (m ≫= f) st = ((f a st1).1.1, t1 ++ (f a st1).1.2, (f a st1).2).
Proof.
  intros E. unfold mbind, M_bind. rewrite E.
  destruct (f a st1) as [[st2 t2] r]. reflexivity.
Qed.

(** *** The commands that write, as one step each *)

Lemma add_eq file data st :
  add file data st =
  (mkRepo (<[hashObject data := data]> (objects st)) (HEAD st)
          (index st ++ [mkEntry file (hashObject data)]) (stash st),
   [WriteObject (hashObject data) data;
    WriteIndex (index st ++ [mkEntry file (hashObject data)])],
   Returned tt).
Proof. reflexivity. Qed.

Lemma getCurrentHead_eq st : getCurrentHead st = (st, [], Returned (HEAD st)).
Proof.
  unfold getCurrentHead, try_catch, mbind, M_bind, readHEAD, mret, M_ret.
  destruct (HEAD st); reflexivity.
Qed.

Lemma commit_eq message now st :
  let text := JSON_stringify (mkCommit now message (index st) (HEAD st)) in
  commit message now st =
  (mkRepo (<[hashObject text := text]> (objects st)) (Some (hashObject text)) []
          (stash st),
   [WriteObject (hashObject text) text; WriteHEAD (hashObject text);
    WriteIndex []; Console ("Commit successfully created: " +:+ hashObject text)],
   Returned tt).
Proof.
  unfold commit. cbv zeta. unfold mbind at 1, M_bind at 1. simpl.
  unfold mbind at 1, M_bind at 1. rewrite getCurrentHead_eq. reflexivity.
Qed.

Lemma stash_eq now st :
  stash_command now st =
  (mkRepo (objects st) (HEAD st) [] (stash st ++ [mkStash now (index st)]),
   [WriteStash (stash st ++ [mkStash now (index st)]); WriteIndex [];
    Console "Changes stashed successfully."],
   Returned tt).
Proof. reflexivity. Qed.

(** C1.  [commit(message)] returns; the record stored under the new digest
    reads back with [files] equal to the index as it was when the command
    started; the index is empty and [HEAD] holds the new digest afterwards;
    and in the order of the writes, the one that clears the index comes
    after the one that stores the record. *)
Theorem commit_snapshot (st : Repo) (message now : string) :
  let commitData := mkCommit now message (index st) (HEAD st) in
  let D := hashObject (JSON_stringify commitData) in
  ∃ st' t,
    commit message now st = (st', t, Returned tt)
    ∧ (∃ text c, objects st' !! D = Some text
                 ∧ JSON_parse text = JCommit c
                 ∧ files c = index st)
    ∧ index st' = []
    ∧ HEAD st' = Some D
    ∧ (∀ before after, t = before ++ WriteIndex [] :: after →
         WriteObject D (JSON_stringify commitData) ∈ before).
Proof using parse_stringify.
  intros commitData D. eexists _, _. split; [apply commit_eq |].
  fold commitData. fold D. simpl. repeat split.
  - exists (JSON_stringify commitData), commitData.
    rewrite lookup_insert_eq, parse_stringify. done.
  - intros before after E.
    destruct before as [|e1 before]; [discriminate E |].
    injection E as <- E. apply list_elem_of_here.
Qed.

(** C9.  [stash()] returns after appending the one entry
    [{timeStamp, files: index}] at the end of the stash and emptying the
    index; [HEAD] and the objects are as before, and the command writes
    neither. *)
Theorem stash_appends_and_clears (st : Repo) (now : string) :
  ∃ st' t,
    stash_command now st = (st', t, Returned tt)
    ∧ stash st' = stash st ++ [mkStash now (index st)]
    ∧ index st' = []
    ∧ HEAD st' = HEAD st
    ∧ objects st' = objects st
    ∧ (∀ e, e ∈ t → (∀ d x, e ≠ WriteObject d x) ∧ (∀ d, e ≠ WriteHEAD d)).
Proof.
  eexists _, _. split; [apply stash_eq |]. simpl.
  do 4 (split; [done |]).
  intros e He. apply list_elem_of_In in He. simpl in He.
  destruct He as [<- | [<- | [<- | []]]]; split; intros; discriminate.
Qed.

(** C10.  [commit(message)] on an empty index returns all the same: it
    stores a record whose [files] is the empty array and moves [HEAD] to the
    digest of that record. *)
Theorem commit_empty_index (st : Repo) (message now : string) :
  index st = [] →
  let commitData := mkCommit now message [] (HEAD st) in
  let D := hashObject (JSON_stringify commitData) in
  ∃ st' t,
    commit message now st = (st', t, Returned tt)
    ∧ objects st' !! D = Some (JSON_stringify commitData)
    ∧ files commitData = []
    ∧ HEAD st' = Some D.
Proof.
  intros E commitData D. eexists _, _. split; [apply commit_eq |].
  rewrite E. fold commitData. fold D. simpl.
  rewrite lookup_insert_eq. done.
Qed.

(** C5.  Equal contents get equal digests; after either [add] the object
    under that digest is the content; and the second [add] writes the file
    the first one wrote, so that the two together leave one object more
    than a repository that had none under the digest. *)
Theorem add_content_addressed (st : Repo) (file1 file2 c1 c2 : string) :
  c1 = c2 →
  let st1 := (add file1 c1 st).1.1 in
  let st2 := (add file2 c2 st1).1.1 in
  hashObject c1 = hashObject c2
  ∧ objects st1 !! hashObject c1 = Some c1
  ∧ objects st2 !! hashObject c2 = Some c2
  ∧ objects st2 = objects st1
  ∧ written (add file1 c1 st).1.2 = [c1]
  ∧ (add file1 c1 st).1.2 !! 0 = Some (WriteObject (hashObject c1) c1)
  ∧ (add file2 c2 st1).1.2 !! 0 = Some (WriteObject (hashObject c1) c2)
  ∧ dom (objects st2) = {[hashObject c1]} ∪ dom (objects st)
  ∧ (objects st !! hashObject c1 = None → size (objects st2) = S (size (objects st))).
Proof.
  intros <- st1 st2. subst st1 st2. rewrite !add_eq. simpl.
  rewrite insert_insert_eq, lookup_insert_eq, dom_insert_L.
  repeat split; try done.
  intros Hnew. by apply map_size_insert_None.
Qed.

(** *** Looking a path up in a commit *)

Lemma getFileContent_eq fileHash st :
  getFileContent fileHash st =
  match objects st !! fileHash with
  | Some content => (st, [], Returned content)
  | None => (st, [], Thrown (ENOENT fileHash))
  end.
Proof. reflexivity. Qed.

(** What the lookup does: [getParentFileContent] returns the content of
    the blob of the FIRST entry of [files] with the path, whatever entries
    follow it, and [undefined] when no entry has the path. *)
Theorem getParentFileContent_first (c : Commit) (filePath : string) (st : Repo) :
  (∀ before entry after content,
     files c = before ++ entry :: after →
     path entry = filePath →
     (∀ e, e ∈ before → path e ≠ filePath) →
     objects st !! hash entry = Some content →
     getParentFileContent c filePath st = (st, [], Returned (Some content)))
  ∧ ((∀ e, e ∈ files c → path e ≠ filePath) →
     getParentFileContent c filePath st = (st, [], Returned None)).
Proof.
  unfold getParentFileContent. split.
  - intros before entry after content -> Hpath Hbefore Hblob.
    assert (List.find (λ file, bool_decide (path file = filePath))
              (before ++ entry :: after) = Some entry) as ->.
    { induction before as [|x before IH]; simpl.
      - by rewrite bool_decide_eq_true_2.
      - rewrite bool_decide_eq_false_2 by (apply Hbefore; left).
        apply IH. intros e He. apply Hbefore. by right. }
    unfold mbind, M_bind. rewrite getFileContent_eq, Hblob. reflexivity.
  - intros Hnone.
    assert (List.find (λ file, bool_decide (path file = filePath)) (files c) = None) as ->.
    { induction (files c) as [|x l IH]; simpl; [done |].
      rewrite bool_decide_eq_false_2 by (apply Hnone; left).
      apply IH. intros e He. apply Hnone. by right. }
    reflexivity.
Qed.

(** C4, on the code.  With two entries for [a.txt] in [files],
    [getParentFileContent] returns the blob of the first, [hello], where the
    last entry, which the specification names and which [status] takes for
    the same commit, has the blob [world]. *)
Lemma getParentFileContent_not_last :
  getParentFileContent twice_added "a.txt" two_blobs
    = (two_blobs, [], Returned (Some "hello"))
  ∧ resolveFileAt_last twice_added "a.txt" two_blobs
    = (two_blobs, [], Returned (Some "world"))
  ∧ getParentFileContent twice_added "a.txt" two_blobs
    ≠ resolveFileAt_last twice_added "a.txt" two_blobs.
Proof.
  assert (getParentFileContent twice_added "a.txt" two_blobs
            = (two_blobs, [], Returned (Some "hello"))) as E1 by reflexivity.
  assert (resolveFileAt_last twice_added "a.txt" two_blobs
            = (two_blobs, [], Returned (Some "world"))) as E2 by reflexivity.
  rewrite E1, E2. do 2 (split; [done |]). intros E. discriminate E.
Qed.

(** *** Showing a commit *)

Lemma getCommitData_eq commitHash st :
  getCommitData commitHash st =
  match objects st !! commitHash with
  | Some text => (st, [], Returned (Some text))
  | None => (st, [Console "undefined"], Returned None)
  end.
Proof.
  unfold getCommitData, try_catch, mbind, M_bind, readObject.
  destruct (objects st !! commitHash); reflexivity.
Qed.

Lemma parse_commit text c st :
  JSON_parse text = JCommit c → parse (Some text) st = (st, [], Returned (JCommit c)).
Proof. intros E. unfold parse. rewrite E. reflexivity. Qed.

Lemma show_part_eq part st :
  show_part part st = (st, part_events part, Returned tt).
Proof.
  unfold show_part, part_events, mbind, M_bind, console_log, emit.
  destruct (added part), (removed part); reflexivity.
Qed.

Lemma for_of_show_part parts st :
  for_of parts show_part st = (st, flat_map part_events parts, Returned tt).
Proof.
  induction parts as [|part parts IH]; [reflexivity |].
  simpl for_of.
  rewrite (bind_returned _ _ st st (part_events part) tt) by apply show_part_eq.
  rewrite IH. reflexivity.
Qed.

Lemma show_file_eq st commitData parentCommitData file p ptext content :
  parent commitData = Some p → p ≠ "" →
  objects st !! p = Some ptext →
  JSON_parse ptext = JCommit parentCommitData →
  objects st !! hash file = Some content →
  show_file commitData file st =
  match List.find (λ f, bool_decide (path f = path file)) (files parentCommitData) with
  | None =>
      (st, [Console ("File: " +:+ path file); Console content;
            Console "New files in this commit"], Returned tt)
  | Some e =>
      match objects st !! hash e with
      | Some parentContent =>
          (st, [Console ("File: " +:+ path file); Console content;
                Console (LF +:+ "Diff:")]
               ++ flat_map part_events (diffLines parentContent content),
           Returned tt)
      | None =>
          (st, [Console ("File: " +:+ path file); Console content],
           Thrown (ENOENT (hash e)))
      end
  end.
Proof.
  intros Hp Hne Hobj Hparse Hblob.
  unfold show_file, console_log. rewrite bind_emit.
  rewrite (bind_silent _ _ st content)
    by (rewrite getFileContent_eq, Hblob; reflexivity).
  rewrite bind_emit. rewrite Hp, (truthy_Some p Hne).
  change (default "" (Some p)) with p.
  rewrite (bind_silent _ _ st (Some ptext))
    by (rewrite getCommitData_eq, Hobj; reflexivity).
  rewrite (bind_silent _ _ st (JCommit parentCommitData))
    by (by apply parse_commit).
  rewrite (bind_silent _ _ st parentCommitData) by reflexivity.
  unfold getParentFileContent.
  destruct (List.find _ (files parentCommitData)) as [e|].
  - destruct (objects st !! hash e) as [pc|] eqn:He.
    + rewrite (bind_silent _ _ st (Some pc)).
      2: { rewrite (bind_silent _ _ st pc); [reflexivity |].
           rewrite getFileContent_eq, He. reflexivity. }
      rewrite bind_emit, for_of_show_part. reflexivity.
    + rewrite (bind_thrown _ _ st st [] (ENOENT (hash e))); [reflexivity |].
      apply bind_thrown. rewrite getFileContent_eq, He. reflexivity.
  - rewrite (bind_silent _ _ st None) by reflexivity. reflexivity.
Qed.

(** C7.  Showing a commit whose parent is there runs [show_file] on each
    entry of [files].  For an entry whose path the parent has no entry for,
    [show_file] prints the path, the content and "New files in this
    commit", and no part of a diff; with an entry in the parent whose blob
    is there, it prints the parts [diffLines] returns for the two contents;
    and whenever it prints a part, the parent has an entry for the path. *)
Theorem show_new_file_or_diff (st : Repo) (commitHash ctext : string)
    (commitData parentCommitData : Commit) (file : IndexEntry)
    (p ptext content : string) :
  objects st !! commitHash = Some ctext →
  JSON_parse ctext = JCommit commitData →
  parent commitData = Some p → p ≠ "" →
  objects st !! p = Some ptext →
  JSON_parse ptext = JCommit parentCommitData →
  objects st !! hash file = Some content →
  showCommitDiff commitHash st =
    (console_log "Changes in the last commit are: ";;
     for_of (files commitData) (show_file commitData)) st
  ∧ ((∀ e, e ∈ files parentCommitData → path e ≠ path file) →
     show_file commitData file st =
       (st, [Console ("File: " +:+ path file); Console content;
             Console "New files in this commit"], Returned tt))
  ∧ (∀ e parentContent,
       List.find (λ f, bool_decide (path f = path file)) (files parentCommitData) = Some e →
       objects st !! hash e = Some parentContent →
       show_file commitData file st =
         (st, [Console ("File: " +:+ path file); Console content;
               Console (LF +:+ "Diff:")]
              ++ flat_map part_events (diffLines parentContent content),
          Returned tt))
  ∧ (∀ text, Stdout text ∈ (show_file commitData file st).1.2 →
       ∃ e, e ∈ files parentCommitData ∧ path e = path file).
Proof.
  intros Hc Hcparse Hp Hne Hobj Hparse Hblob.
  pose proof (show_file_eq st commitData parentCommitData file p ptext content
                Hp Hne Hobj Hparse Hblob) as E.
  split; [| split; [| split]].
  - unfold showCommitDiff.
    rewrite (bind_silent _ _ st (Some ctext))
      by (rewrite getCommitData_eq, Hc; reflexivity).
    rewrite (bind_silent _ _ st (JCommit commitData)) by (by apply parse_commit).
    rewrite (bind_silent _ _ st commitData) by reflexivity. reflexivity.
  - intros Hnone. rewrite E.
    destruct (List.find _ (files parentCommitData)) as [e|] eqn:F; [| reflexivity].
    apply find_some in F as [Hin Hpath].
    apply bool_decide_eq_true in Hpath.
    exfalso. apply (Hnone e); [by apply list_elem_of_In | done].
  - intros e pc F He. rewrite E, F, He. reflexivity.
  - intros text Hin. rewrite E in Hin.
    destruct (List.find _ (files parentCommitData)) as [e|] eqn:F.
    + apply find_some in F as [He Hpath].
      apply bool_decide_eq_true in Hpath.
      exists e. split; [by apply list_elem_of_In | done].
    + simpl in Hin. apply list_elem_of_In in Hin. simpl in Hin.
      destruct Hin as [D | [D | [D | []]]]; discriminate D.
Qed.

(** *** Status *)

Lemma currentFileHashes_kept (worktree : list (string * string)) (file : string) :
  ∀ acc : gmap string string,
  (∃ data, acc !! file = Some (hashObject data)) →
  ∃ data,
    foldl (λ acc f, obj_set acc f.1 (hashObject f.2)) acc worktree !! file
    = Some (hashObject data).
Proof.
  induction worktree as [|[name text] worktree IH]; intros acc [data Hacc]; simpl.
  - by exists data.
  - apply IH. unfold obj_set. case_bool_decide; [by exists data |].
    destruct (decide (name = file)) as [-> | Hne].
    + exists text. apply lookup_insert_eq.
    + exists data. by rewrite lookup_insert_ne.
Qed.

Lemma currentFileHashes_lookup (worktree : list (string * string)) (file : string) :
  file ≠ "__proto__" →
  file ∈ worktree.*1 →
  ∀ acc : gmap string string,
  ∃ data,
    foldl (λ acc f, obj_set acc f.1 (hashObject f.2)) acc worktree !! file
    = Some (hashObject data).
Proof.
  intros Hproto. induction worktree as [|[name text] worktree IH]; intros Hin acc.
  - by apply elem_of_nil in Hin.
  - simpl in *. apply elem_of_cons in Hin as [-> | Hin].
    + apply currentFileHashes_kept. exists text. unfold obj_set.
      rewrite bool_decide_eq_false_2 by done. apply lookup_insert_eq.
    + by apply IH.
Qed.

(** X24.  Whatever the index and the commit of [HEAD] are, a file of the
    working tree (other than one named [__proto__]) that passes the test of
    "Untracked files" also passes the test of "Changes not staged for
    commit". *)
Lemma untracked_also_not_staged (index : list IndexEntry)
    (headFiles : gmap string string) (worktree : list (string * string))
    (file : string) :
  file ≠ "__proto__" →
  file ∈ worktree.*1 →
  untracked index headFiles file = true →
  not_staged index headFiles
    (foldl (λ acc f, obj_set acc f.1 (hashObject f.2)) ∅ worktree) file = true.
Proof using digest_length.
  intros Hproto Hin. unfold untracked, not_staged.
  intros [Hidx Hhead]%andb_true_iff. rewrite Hidx. simpl.
  apply bool_decide_eq_true.
  destruct (currentFileHashes_lookup worktree file Hproto Hin ∅) as [data Hcur].
  unfold obj_get at 2. rewrite Hcur.
  destruct (obj_get headFiles file) as [| s | key]; simpl in Hhead; try done.
  intros [= ->]. apply negb_true_iff, bool_decide_eq_false in Hhead.
  apply Hhead, digest_nonempty.
Qed.

(** C2, on the code.  In a fresh repository with the one file [a.txt] in
    the working tree, both tests of [status] accept [a.txt]: it is printed
    under "Changes not staged for commit" and again under "Untracked
    files".  Nothing in the first test asks for an entry in the commit of
    [HEAD]: [headFiles[file]] is [undefined] there and differs from the
    digest of the file. *)
Theorem status_lists_untracked_as_modified :
  let worktree := [("a.txt", "hello")] in
  let currentFileHashes := obj_set ∅ "a.txt" (hashObject "hello") in
  not_staged [] ∅ currentFileHashes "a.txt" = true
  ∧ untracked [] ∅ "a.txt" = true
  ∧ status worktree init =
      (init,
       [Console "Changes to be committed:";
        Console (LF +:+ "Changes not staged for commit:");
        Console ("  " +:+ chalk red "modified" +:+ ": " +:+ "a.txt");
        Console (LF +:+ "Untracked files:");
        Console ("  " +:+ chalk red "new file" +:+ ": " +:+ "a.txt")],
       Returned tt).
Proof.
  assert (not_staged [] ∅ (obj_set ∅ "a.txt" (hashObject "hello")) "a.txt" = true) as E1.
  { unfold not_staged, obj_set. simpl.
    apply bool_decide_eq_true. unfold obj_get. rewrite lookup_insert_eq. done. }
  assert (untracked [] ∅ "a.txt" = true) as E2 by reflexivity.
  cbv zeta. do 2 (split; [done |]).
  unfold status. unfold mbind at 1, M_bind at 1. simpl.
  unfold mbind at 1, M_bind at 1. rewrite getCurrentHead_eq. simpl.
  unfold mbind at 1, M_bind at 1. simpl.
  unfold obj_set in E1. simpl in E1.
  unfold mbind, M_bind, console_log, emit, mret, M_ret. simpl.
  unfold obj_set. simpl. rewrite E1, E2. reflexivity.
Qed.

(** *** A digest without an object *)

(** C8, on the code.  With [HEAD] naming an object that is not in the
    store, [log] ends with the error of the failed read, which nothing
    catches; [showCommitDiff] on the same digest goes through
    [getCommitData], prints, and returns.  Neither writes. *)
Theorem log_throws_on_missing_commit (n : nat) :
  log (S n) dangling = (dangling, [], Thrown (ENOENT "abc"))
  ∧ showCommitDiff "abc" dangling =
      (dangling, [Console "undefined"; Console "Commit not found"], Returned tt).
Proof. split; reflexivity. Qed.

(** *** Histories *)

Lemma run_command_eq c st :
  run_command c st = ((run_command c st).1.1, (run_command c st).1.2, Returned tt).
Proof.
  destruct c as [file data | message now | now]; simpl run_command.
  - rewrite add_eq. reflexivity.
  - rewrite commit_eq. reflexivity.
  - rewrite stash_eq. reflexivity.
Qed.

Lemma run_cons c cs st :
  run (c :: cs) st =
  ((run cs (run_command c st).1.1).1.1,
   (run_command c st).1.2 ++ (run cs (run_command c st).1.1).1.2,
   (run cs (run_command c st).1.1).2).
Proof.
  unfold run. simpl for_of.
  rewrite (bind_returned _ _ st _ _ tt (run_command_eq c st)). reflexivity.
Qed.

Lemma repo_after_cons c cs st :
  repo_after (c :: cs) st = repo_after cs (run_command c st).1.1.
Proof. unfold repo_after. rewrite run_cons. reflexivity. Qed.

Lemma trace_of_cons c cs st :
  trace_of (c :: cs) st =
  (run_command c st).1.2 ++ trace_of cs (run_command c st).1.1.
Proof. unfold trace_of. rewrite run_cons. reflexivity. Qed.

Lemma written_app t1 t2 : written (t1 ++ t2) = written t1 ++ written t2.
Proof. unfold written. apply omap_app. Qed.

(** [HEAD] after a sequence of commands: untouched without a commit, a
    digest after one. *)
Lemma HEAD_after cmds : ∀ st,
  (existsb is_commit cmds = false → HEAD (repo_after cmds st) = HEAD st)
  ∧ (existsb is_commit cmds = true →
     ∃ text, HEAD (repo_after cmds st) = Some (hashObject text)).
Proof.
  induction cmds as [|c cs IH]; intros st.
  - split; [reflexivity | discriminate].
  - rewrite repo_after_cons. simpl existsb.
    destruct (IH (run_command c st).1.1) as [IH0 IH1].
    destruct (existsb is_commit cs) eqn:Ecs.
    + rewrite orb_true_r. split; [discriminate | intros _; by apply IH1].
    + rewrite orb_false_r. rewrite IH0 by done.
      destruct c as [file data | message now | now]; simpl.
      * split; [reflexivity | discriminate].
      * split; [discriminate | intros _]. rewrite commit_eq. simpl. eauto.
      * split; [reflexivity | discriminate].
Qed.

(** C3.  In every history that starts from [init], a commit stores a
    record whose [parent] is the text [HEAD] held when the command started.
    That text is empty (the value the commands take for "no parent", where
    the specification says null) exactly when no commit came before, and is
    a digest otherwise. *)
Theorem parent_empty_iff_first (before : list command) (message now : string) :
  let st := repo_after before init in
  ∃ st' t text c,
    commit message now st = (st', t, Returned tt)
    ∧ HEAD st' = Some (hashObject text)
    ∧ objects st' !! hashObject text = Some text
    ∧ JSON_parse text = JCommit c
    ∧ parent c = HEAD st
    ∧ (parent c = Some "" ↔ existsb is_commit before = false)
    ∧ (existsb is_commit before = true → truthy (parent c) = true).
Proof using digest_length parse_stringify.
  intros st.
  exists (commit message now st).1.1, (commit message now st).1.2,
    (JSON_stringify (mkCommit now message (index st) (HEAD st))),
    (mkCommit now message (index st) (HEAD st)).
  rewrite commit_eq. simpl.
  rewrite lookup_insert_eq, parse_stringify.
  do 5 (split; [done |]).
  destruct (HEAD_after before init) as [H0 H1]. fold st in H0, H1.
  destruct (existsb is_commit before).
  - destruct H1 as [text ->]; [done |]. split; [| intros _; apply truthy_digest].
    split; [| discriminate]. intros [= E]. by apply digest_nonempty in E.
  - rewrite H0 by done. simpl. split; [done | discriminate].
Qed.

(** *** The walk of [log] *)

Lemma collision_free_spec l :
  collision_free l ↔
  ∀ x y, x ∈ l → y ∈ l → hashObject x = hashObject y → x = y.
Proof.
  unfold collision_free. rewrite Forall_forall. split.
  - intros H x y Hx Hy. specialize (H x Hx). rewrite Forall_forall in H. by apply H.
  - intros H x Hx. rewrite Forall_forall. intros y Hy. by apply H.
Qed.

Lemma chain_mono objs objs' h l :
  (∀ k v, objs !! k = Some v → objs' !! k = Some v) →
  chain objs h l → chain objs' h l.
Proof.
  intros Hsub C. induction C as [h Hh | d c l Hd Hobj C IH].
  - by apply chain_end.
  - apply chain_step; [done | by apply Hsub | done].
Qed.

(** Storing a text under its digest leaves the other objects as they are,
    when no text stored so far collides with it. *)
Lemma store_keeps objs texts text :
  content_addressed objs texts →
  (∀ x, x ∈ texts → hashObject x = hashObject text → x = text) →
  ∀ k v, objs !! k = Some v → <[hashObject text := text]> objs !! k = Some v.
Proof.
  intros CA Hfree k v Hk.
  destruct (decide (hashObject text = k)) as [<- | Hne].
  - destruct (CA _ _ Hk) as [E Hin]. rewrite lookup_insert_eq.
    f_equal. symmetry. apply Hfree; [done | by symmetry].
  - by rewrite lookup_insert_ne.
Qed.

Lemma store_content_addressed objs texts text :
  content_addressed objs texts →
  content_addressed (<[hashObject text := text]> objs) (texts ++ [text]).
Proof.
  intros CA k v. rewrite lookup_insert. case_decide as E.
  - intros [= <-]. split; [done |]. apply elem_of_app. right. apply list_elem_of_here.
  - intros Hk. destruct (CA _ _ Hk) as [-> Hin]. split; [done |].
    apply elem_of_app. by left.
Qed.

(** One command keeps the objects content-addressed and the chain from
    [HEAD], and a commit puts its record in front of the chain. *)
Lemma step_invariant c st texts l :
  content_addressed (objects st) texts →
  chain (objects st) (HEAD st) l →
  (∀ x y, x ∈ texts ++ written (run_command c st).1.2 →
          y ∈ texts ++ written (run_command c st).1.2 →
          hashObject x = hashObject y → x = y) →
  content_addressed (objects (run_command c st).1.1)
                    (texts ++ written (run_command c st).1.2)
  ∧ chain (objects (run_command c st).1.1) (HEAD (run_command c st).1.1)
          (rev (commits_made [c] st) ++ l).
Proof using digest_length.
  intros CA C Hfree.
  destruct c as [file data | message now | now]; simpl run_command in *.
  - rewrite add_eq in *. simpl in *. split; [by apply store_content_addressed |].
    eapply chain_mono; [| exact C].
    apply (store_keeps _ texts); [done |].
    intros x Hx. apply Hfree; apply elem_of_app; [by left | right; apply list_elem_of_here].
  - rewrite commit_eq in *. simpl in *.
    set (text := JSON_stringify (mkCommit now message (index st) (HEAD st))) in *.
    split; [by apply store_content_addressed |].
    apply chain_step; [apply digest_nonempty | apply lookup_insert_eq |].
    simpl. eapply chain_mono; [| exact C].
    apply (store_keeps _ texts); [done |].
    intros x Hx. apply Hfree; apply elem_of_app; [by left | right; apply list_elem_of_here].
  - rewrite stash_eq in *. simpl in *. rewrite app_nil_r. done.
Qed.

Lemma commits_made_cons c cs st :
  commits_made (c :: cs) st =
  commits_made [c] st ++ commits_made cs (run_command c st).1.1.
Proof. simpl. rewrite app_nil_r. reflexivity. Qed.

Lemma run_invariant cmds : ∀ st texts l,
  content_addressed (objects st) texts →
  chain (objects st) (HEAD st) l →
  (∀ x y, x ∈ texts ++ written (trace_of cmds st) →
          y ∈ texts ++ written (trace_of cmds st) →
          hashObject x = hashObject y → x = y) →
  content_addressed (objects (repo_after cmds st)) (texts ++ written (trace_of cmds st))
  ∧ chain (objects (repo_after cmds st)) (HEAD (repo_after cmds st))
          (rev (commits_made cmds st) ++ l).
Proof using digest_length.
  induction cmds as [|c cs IH]; intros st texts l CA C Hfree.
  - unfold repo_after, trace_of. simpl. rewrite app_nil_r. done.
  - rewrite repo_after_cons, trace_of_cons, written_app in *.
    rewrite (assoc (++)) in *.
    destruct (step_invariant c st texts l CA C) as [CA1 C1].
    { intros x y Hx Hy. apply Hfree; apply elem_of_app; by left. }
    destruct (IH _ _ _ CA1 C1 Hfree) as [CA2 C2].
    split; [done |].
    rewrite commits_made_cons, rev_app_distr, <- (assoc (++)). done.
Qed.

Lemma log_loop_S n h :
  log_loop (S n) h =
  if truthy h then
    text ← readObject (default "" h);
    v ← parse (Some text);
    commitData ← record v;
    console_log (log_line (default "" h) commitData);;
    log_loop n (parent commitData)
  else mret tt.
Proof. reflexivity. Qed.

Lemma log_loop_end n h st :
  truthy h = false → log_loop n h st = (st, [], Returned tt).
Proof. intros E. destruct n; simpl; rewrite E; reflexivity. Qed.

Lemma log_loop_chain st h l :
  chain (objects st) h l →
  ∀ n, length l ≤ n →
  log_loop n h st = (st, map (λ dc, Console (log_line dc.1 dc.2)) l, Returned tt).
Proof using parse_stringify.
  intros C. induction C as [h Hh | d c l Hd Hobj C IH]; intros n Hn.
  - by apply log_loop_end.
  - destruct n as [|n]; [simpl in Hn; lia |].
    rewrite log_loop_S, (truthy_Some d Hd).
    change (default "" (Some d)) with d.
    rewrite (bind_silent _ _ st (JSON_stringify c))
      by (unfold readObject; rewrite Hobj; reflexivity).
    rewrite (bind_silent _ _ st (JCommit c))
      by (apply parse_commit, parse_stringify).
    rewrite (bind_silent _ _ st c) by reflexivity.
    unfold console_log. rewrite bind_emit.
    rewrite IH by (simpl in Hn; lia). reflexivity.
Qed.

(** C6.  After any sequence of commands from [init] in which no two
    different stored texts got the same digest, the objects link the
    commits from [HEAD] back through [parent] to the first one; [log], given
    at least as many turns of its loop as there are commits, returns after
    printing them newest first and writes nothing.  On a [HEAD] that is
    empty or missing [log] returns at once with nothing printed. *)
Theorem log_walks_history (cmds : list command) :
  collision_free (written (trace_of cmds init)) →
  let st := repo_after cmds init in
  let history := rev (commits_made cmds init) in
  chain (objects st) (HEAD st) history
  ∧ (∀ n, length history ≤ n →
       log n st = (st, map (λ dc, Console (log_line dc.1 dc.2)) history, Returned tt))
  ∧ (∀ st0 n, truthy (HEAD st0) = false → log n st0 = (st0, [], Returned tt)).
Proof using digest_length parse_stringify.
  intros Hfree st history.
  rewrite collision_free_spec in Hfree.
  destruct (run_invariant cmds init [] []) as [_ C].
  { intros k v Hk. change (objects init) with (∅ : gmap string string) in Hk.
    by apply lookup_empty_Some in Hk. }
  { by apply chain_end. }
  { exact Hfree. }
  rewrite app_nil_r in C. fold st history in C.
  split; [done |]. split.
  - intros n Hn. unfold log.
    rewrite (bind_silent _ _ st (HEAD st)) by apply getCurrentHead_eq.
    by apply log_loop_chain.
  - intros st0 n Hempty. unfold log.
    rewrite (bind_silent _ _ st0 (HEAD st0)) by apply getCurrentHead_eq.
    by apply log_loop_end.
Qed.

(** *** Initialising *)

(** X1.  [init] never replaces a file or the objects that are there. *)
Theorem init_keeps_existing (grootignore : option string) (d : Disk) :
  (∀ objs, objects_dir d = Some objs → objects_dir (GRoot_init grootignore d).1 = Some objs)
  ∧ (∀ text, HEAD_file d = Some text → HEAD_file (GRoot_init grootignore d).1 = Some text)
  ∧ (∀ idx, index_file d = Some idx → index_file (GRoot_init grootignore d).1 = Some idx)
  ∧ (∀ sts, stash_file d = Some sts → stash_file (GRoot_init grootignore d).1 = Some sts).
Proof.
  unfold GRoot_init.
  destruct d as [objs [h|] [idx|] [sts|]]; simpl; repeat split; intros x E;
    try discriminate E; try exact E; by rewrite E.
Qed.

(** X2.  When [HEAD] is there, [init] stops at it: it creates neither a
    missing [index] nor a missing [stash], and does not read [.grootignore].
    In particular a second [init] changes nothing and adds no rule,
    whatever the first one found. *)
Theorem init_stops_at_HEAD (grootignore : option string) (d : Disk) :
  (∀ text, HEAD_file d = Some text →
     index_file (GRoot_init grootignore d).1 = index_file d
     ∧ stash_file (GRoot_init grootignore d).1 = stash_file d
     ∧ (GRoot_init grootignore d).2 = None)
  ∧ GRoot_init grootignore (GRoot_init grootignore d).1
    = ((GRoot_init grootignore d).1, None).
Proof.
  split.
  - intros text E. unfold GRoot_init. rewrite E. done.
  - unfold GRoot_init.
    destruct d as [[objs|] [h|] [idx|] [sts|]]; reflexivity.
Qed.

(** X3.  In a directory with none of the three files, [init] leaves the
    repository [init] on top of the objects that were there, and adds the
    text of [.grootignore] to the rules; with any of the three files there
    it adds no rule. *)
Theorem init_fresh (grootignore : option string) (d : Disk) :
  (HEAD_file d = None → index_file d = None → stash_file d = None →
     repo_of (GRoot_init grootignore d).1
       = Some (mkRepo (default ∅ (objects_dir d)) (Some "") [] [])
     ∧ (GRoot_init grootignore d).2 = grootignore)
  ∧ (is_Some (HEAD_file d) ∨ is_Some (index_file d) ∨ is_Some (stash_file d) →
     (GRoot_init grootignore d).2 = None).
Proof.
  unfold GRoot_init, repo_of. split.
  - intros -> -> ->. done.
  - destruct (HEAD_file d), (index_file d), (stash_file d); try done.
    intros [[x E] | [[x E] | [x E]]]; discriminate E.
Qed.

(** *** Listing the working tree *)

Lemma tree_induction (P : tree → Prop) :
  (∀ text, P (File text)) →
  (∀ files, Forall (λ e, P e.2) files → P (Dir files)) →
  ∀ node, P node.
Proof.
  intros HF HD. fix IH 1. intros [text | files].
  - apply HF.
  - apply HD. induction files as [|[name child] files IHfiles].
    + constructor.
    + constructor; [apply IH | exact IHfiles].
Qed.

Lemma getAllFiles_nil dir allFiles : getAllFiles dir [] allFiles = allFiles.
Proof. reflexivity. Qed.

Lemma getAllFiles_cons dir file child files allFiles :
  getAllFiles dir ((file, child) :: files) allFiles =
  if ignores (path_join dir file) then getAllFiles dir files allFiles
  else getAllFiles dir files (getAllFiles_entry (path_join dir file) child allFiles).
Proof. reflexivity. Qed.

Lemma getAllFiles_entry_Dir filePath files allFiles :
  getAllFiles_entry filePath (Dir files) allFiles = getAllFiles filePath files allFiles.
Proof. reflexivity. Qed.

Lemma getAllFiles_entry_acc node : ∀ filePath allFiles,
  getAllFiles_entry filePath node allFiles
  = allFiles ++ getAllFiles_entry filePath node [].
Proof.
  induction node as [text | files IH] using tree_induction; intros filePath allFiles.
  - reflexivity.
  - rewrite !getAllFiles_entry_Dir. revert allFiles.
    induction IH as [|[file child] files Hchild _ IHfiles]; intros allFiles.
    + by rewrite !getAllFiles_nil, app_nil_r.
    + rewrite !getAllFiles_cons. destruct (ignores (path_join filePath file)).
      * apply IHfiles.
      * simpl in Hchild.
        rewrite IHfiles, (Hchild _ allFiles).
        rewrite (IHfiles (getAllFiles_entry _ child [])).
        by rewrite (assoc (++)).
Qed.

Lemma getAllFiles_acc dir files allFiles :
  getAllFiles dir files allFiles = allFiles ++ getAllFiles dir files [].
Proof. apply (getAllFiles_entry_acc (Dir files)). Qed.

(** X4.  [getAllFiles] only adds to the array it is given, and lists the
    entries of a directory one after the other: the listing of two runs of
    entries is the listing of the first followed by that of the second. *)
Theorem getAllFiles_appends (dir : string) (files1 files2 : list (string * tree))
    (allFiles : list string) :
  getAllFiles dir files1 allFiles = allFiles ++ getAllFiles dir files1 []
  ∧ getAllFiles dir (files1 ++ files2) []
    = getAllFiles dir files1 [] ++ getAllFiles dir files2 [].
Proof.
  split.
  - apply getAllFiles_acc.
  - induction files1 as [|[file child] files1 IH]; [reflexivity |].
    simpl app. rewrite !getAllFiles_cons.
    destruct (ignores (path_join dir file)); [exact IH |].
    rewrite (getAllFiles_acc dir (files1 ++ files2)).
    rewrite (getAllFiles_acc dir files1), IH. by rewrite (assoc (++)).
Qed.

Lemma getAllFiles_entry_not_ignored node : ∀ filePath,
  ignores filePath = false →
  Forall (λ p, ignores p = false) (getAllFiles_entry filePath node []).
Proof.
  induction node as [text | files IH] using tree_induction; intros filePath Hpath.
  - simpl. by repeat constructor.
  - rewrite getAllFiles_entry_Dir. clear Hpath.
    induction IH as [|[file child] files Hchild _ IHfiles].
    + constructor.
    + rewrite getAllFiles_cons.
      destruct (ignores (path_join filePath file)) eqn:E; [exact IHfiles |].
      rewrite getAllFiles_acc.
      apply Forall_app. split; [by apply Hchild | exact IHfiles].
Qed.

(** X5.  No path [getAllFiles] returns is ignored, and an ignored entry,
    file or directory, counts for nothing: the listing is that of the
    directory without its ignored entries. *)
Theorem getAllFiles_skips_ignored (dir : string) (files : list (string * tree))
    (allFiles : list string) :
  Forall (λ p, ignores p = false) (getAllFiles dir files [])
  ∧ getAllFiles dir files allFiles
    = getAllFiles dir
        (List.filter (λ e, negb (ignores (path_join dir e.1))) files) allFiles.
Proof.
  split.
  - induction files as [|[file child] files IH]; [constructor |].
    rewrite getAllFiles_cons.
    destruct (ignores (path_join dir file)) eqn:E; [exact IH |].
    rewrite getAllFiles_acc.
    apply Forall_app. split; [by apply getAllFiles_entry_not_ignored | exact IH].
  - revert allFiles. induction files as [|[file child] files IH]; intros allFiles;
      [reflexivity |].
    rewrite getAllFiles_cons. simpl List.filter.
    destruct (ignores (path_join dir file)) eqn:E; simpl negb; cbv iota.
    + apply IH.
    + rewrite getAllFiles_cons, E. apply IH.
Qed.

Lemma count_files_cons file child files :
  count_files (Dir ((file, child) :: files)) = count_files child + count_files (Dir files).
Proof. reflexivity. Qed.

Lemma getAllFiles_entry_length node : ∀ filePath,
  length (getAllFiles_entry filePath node []) ≤ count_files node
  ∧ ((∀ p, ignores p = false) →
     length (getAllFiles_entry filePath node []) = count_files node).
Proof.
  induction node as [text | files IH] using tree_induction; intros filePath.
  - split; reflexivity.
  - rewrite getAllFiles_entry_Dir.
    induction IH as [|[file child] files Hchild _ IHfiles]; [split; reflexivity |].
    rewrite getAllFiles_cons, count_files_cons. simpl in Hchild.
    destruct (Hchild (path_join filePath file)) as [Hle Heq].
    destruct IHfiles as [IHle IHeq]. split.
    + destruct (ignores (path_join filePath file)); [lia |].
      rewrite getAllFiles_acc, length_app. lia.
    + intros Hnone. rewrite Hnone, getAllFiles_acc, length_app.
      rewrite Heq, IHeq by done. reflexivity.
Qed.

(** X6.  [getAllFiles] returns at most as many paths as there are files
    below the directory, and exactly that many when no path is ignored. *)
Theorem getAllFiles_counts (dir : string) (files : list (string * tree)) :
  length (getAllFiles dir files []) ≤ count_files (Dir files)
  ∧ ((∀ p, ignores p = false) →
     length (getAllFiles dir files []) = count_files (Dir files)).
Proof. apply (getAllFiles_entry_length (Dir files)). Qed.

Lemma worktree_of_cons dir file child files allFiles :
  worktree_of dir ((file, child) :: files) allFiles =
  if ignores (path_join dir file) then worktree_of dir files allFiles
  else worktree_of dir files (worktree_entry (path_join dir file) child allFiles).
Proof. reflexivity. Qed.

Lemma worktree_entry_paths node : ∀ filePath allFiles,
  (worktree_entry filePath node allFiles).*1
  = getAllFiles_entry filePath node allFiles.*1.
Proof.
  induction node as [text | files IH] using tree_induction; intros filePath allFiles.
  - simpl. by rewrite fmap_app.
  - change (worktree_entry filePath (Dir files) allFiles)
      with (worktree_of filePath files allFiles).
    rewrite getAllFiles_entry_Dir. revert allFiles.
    induction IH as [|[file child] files Hchild _ IHfiles]; intros allFiles;
      [reflexivity |].
    rewrite worktree_of_cons, getAllFiles_cons.
    destruct (ignores (path_join filePath file)); [apply IHfiles |].
    rewrite IHfiles. simpl in Hchild. by rewrite Hchild.
Qed.

Lemma worktree_of_paths dir files :
  (worktree_of dir files []).*1 = getAllFiles dir files [].
Proof. apply (worktree_entry_paths (Dir files)). Qed.

(** *** Adding the working tree *)

Lemma for_of_add (worktree : list (string * string)) : ∀ st,
  ∃ t,
    for_of worktree (λ file, add file.1 file.2) st =
    (mkRepo (foldl (λ objs file, <[hashObject file.2 := file.2]> objs) (objects st) worktree)
            (HEAD st)
            (index st ++ map (λ file, mkEntry file.1 (hashObject file.2)) worktree)
            (stash st),
     t, Returned tt).
Proof.
  induction worktree as [|[file text] worktree IH]; intros st.
  - exists []. simpl. rewrite app_nil_r. by destruct st.
  - simpl for_of.
    destruct (IH (add file text st).1.1) as [t Ht].
    eexists. rewrite (bind_returned _ _ st _ _ tt (add_eq file text st)).
    rewrite add_eq in Ht. simpl in Ht. rewrite Ht. simpl.
    by rewrite <- (assoc (++)).
Qed.

Lemma stored_stays (worktree : list (string * string)) :
  ∀ (objs : gmap string string) (k : string),
  is_Some (objs !! k) →
  is_Some (foldl (λ (objs : gmap string string) file, <[hashObject file.2 := file.2]> objs)
             objs worktree !! k).
Proof.
  induction worktree as [|[file text] worktree IH]; intros objs k Hk; [done |].
  simpl. apply IH. rewrite lookup_insert. case_decide; [by eexists | done].
Qed.

Lemma stored_all (worktree : list (string * string)) :
  ∀ objs : gmap string string,
  Forall (λ file,
            is_Some (foldl (λ (objs : gmap string string) file,
                              <[hashObject file.2 := file.2]> objs) objs worktree
                     !! hash (mkEntry file.1 (hashObject file.2))))
         worktree.
Proof.
  induction worktree as [|[file text] worktree IH]; intros objs; constructor.
  - simpl. apply stored_stays. rewrite lookup_insert_eq. by eexists.
  - simpl. apply IH.
Qed.

(** X7.  [addAll] returns after staging one entry for each path
    [getAllFiles(".")] lists, in that order and after the entries that were
    staged before; the blob of every such entry is in the store, no object
    that was there is gone, and [HEAD] and the stash are as before. *)
Theorem addAll_stages_listing (root : list (string * tree)) (st : Repo) :
  ∃ st' t added,
    addAll root st = (st', t, Returned tt)
    ∧ index st' = index st ++ added
    ∧ map path added = getAllFiles "." root []
    ∧ resolves (objects st') added
    ∧ (∀ k, is_Some (objects st !! k) → is_Some (objects st' !! k))
    ∧ HEAD st' = HEAD st
    ∧ stash st' = stash st.
Proof.
  unfold addAll. destruct (for_of_add (worktree_of "." root []) st) as [t Ht].
  eexists _, t, (map (λ file, mkEntry file.1 (hashObject file.2)) (worktree_of "." root [])).
  split; [exact Ht |]. simpl.
  split; [reflexivity |].
  split. { rewrite <- worktree_of_paths, map_map. reflexivity. }
  split.
  { unfold resolves. rewrite Forall_map. apply stored_all. }
  split. { intros k. apply stored_stays. }
  split; reflexivity.
Qed.

(** *** What [status] prints *)

Lemma for_of_cons {A} (x : A) (l : list A) (body : A → M unit) :
  for_of (x :: l) body = (body x;; for_of l body).
Proof. reflexivity. Qed.

Lemma bind_console {B} (line : string) (f : unit → M B) st :
  (console_log line ≫= f) st = ((f tt st).1.1, Console line :: (f tt st).1.2, (f tt st).2).
Proof. apply bind_emit. Qed.

Lemma for_of_console {A} (l : list A) (line : A → string) st :
  for_of l (λ x, console_log (line x)) st = (st, map (λ x, Console (line x)) l, Returned tt).
Proof.
  induction l as [|x l IH]; [reflexivity |].
  rewrite for_of_cons, bind_console, IH. reflexivity.
Qed.

Lemma for_of_console_if {A} (l : list A) (test : A → bool) (line : A → string) st :
  for_of l (λ x, if test x then console_log (line x) else mret tt) st
  = (st, map (λ x, Console (line x)) (List.filter test l), Returned tt).
Proof.
  induction l as [|x l IH]; [reflexivity |].
  rewrite for_of_cons. simpl List.filter. destruct (test x).
  - rewrite bind_console, IH. reflexivity.
  - rewrite (bind_silent _ _ st tt) by reflexivity. exact IH.
Qed.

Lemma status_eq worktree st headCommitFiles :
  head_files st headCommitFiles →
  status worktree st = (st, status_report (index st) headCommitFiles worktree, Returned tt).
Proof.
  intros Hhead. unfold status.
  rewrite (bind_silent _ _ st (index st)) by reflexivity.
  rewrite (bind_silent _ _ st (HEAD st)) by apply getCurrentHead_eq.
  rewrite (bind_silent _ _ st headCommitFiles).
  2: { destruct Hhead as [Hnone | h text c Hh Hne Hobj Hparse].
       - by rewrite Hnone.
       - rewrite Hh, (truthy_Some h Hne). change (default "" (Some h)) with h.
         rewrite (bind_silent _ _ st (Some text))
           by (rewrite getCommitData_eq, Hobj; reflexivity).
         rewrite (bind_silent _ _ st (JCommit c)) by (by apply parse_commit).
         rewrite (bind_silent _ _ st c) by reflexivity. reflexivity. }
  cbv zeta. rewrite bind_console.
  rewrite (bind_returned _ _ st st _ tt (for_of_console _ _ st)).
  rewrite bind_console.
  rewrite (bind_returned _ _ st st _ tt (for_of_console_if _ _ _ st)).
  rewrite bind_console.
  rewrite for_of_console_if. reflexivity.
Qed.

Lemma staged_found (index : list IndexEntry) (file : string) :
  (∃ e, e ∈ index ∧ path e = file) →
  is_Some (List.find (λ stagedFile, bool_decide (path stagedFile = file)) index).
Proof.
  intros (e & He & Hpath). induction index as [|x index IH]; [by apply elem_of_nil in He |].
  simpl. case_bool_decide; [by eexists |].
  apply IH. apply elem_of_cons in He as [-> | He]; done.
Qed.

Lemma filter_none {A} (test : A → bool) (l : list A) :
  (∀ x, x ∈ l → test x = false) → List.filter test l = [].
Proof.
  induction l as [|x l IH]; intros Htest; [reflexivity |].
  simpl. rewrite Htest by left. apply IH. intros y Hy. apply Htest. by right.
Qed.

(** X8.  A file with an entry in the index passes neither the test of
    "Changes not staged for commit" nor that of "Untracked files", whatever
    its content and the commit of [HEAD]; so when every file of the working
    tree is staged, as after [addAll], [status] prints the staged entries
    and two empty sections. *)
Theorem status_all_staged (worktree : list (string * string)) (st : Repo)
    (headCommitFiles : list IndexEntry) :
  head_files st headCommitFiles →
  (∀ file, file ∈ worktree.*1 → ∃ e, e ∈ index st ∧ path e = file) →
  status worktree st =
  (st,
   [Console "Changes to be committed:"]
   ++ map (λ file, Console ("  " +:+ chalk green "modified" +:+ ": " +:+ path file)) (index st)
   ++ [Console (LF +:+ "Changes not staged for commit:");
       Console (LF +:+ "Untracked files:")],
   Returned tt).
Proof.
  intros Hhead Hstaged. rewrite (status_eq _ _ _ Hhead). unfold status_report.
  rewrite !filter_none; [reflexivity | |].
  - intros file Hfile. unfold untracked.
    rewrite bool_decide_eq_true_2; [reflexivity |]. by apply staged_found, Hstaged.
  - intros file Hfile. unfold not_staged.
    rewrite bool_decide_eq_true_2; [reflexivity |]. by apply staged_found, Hstaged.
Qed.

Lemma dictionary_lookup {A} (key val : A → string) (l : list A) (k : string) :
  k ≠ "__proto__" →
  foldl (λ acc x, obj_set acc (key x) (val x)) ∅ l !! k
  = val <$> last (filter (λ x, key x = k) l).
Proof.
  intros Hk. induction l as [|x l IH] using rev_ind; [reflexivity |].
  rewrite foldl_app, filter_app. simpl foldl. unfold obj_set at 1.
  case_bool_decide as Hproto.
  - rewrite filter_cons_False by congruence. rewrite filter_nil, app_nil_r. exact IH.
  - rewrite lookup_insert. case_decide as E.
    + rewrite filter_cons_True by done. rewrite filter_nil, last_snoc. reflexivity.
    + rewrite filter_cons_False by done. rewrite filter_nil, app_nil_r. exact IH.
Qed.

Lemma dictionary_proto {A} (key val : A → string) (l : list A) :
  foldl (λ acc x, obj_set acc (key x) (val x)) ∅ l !! "__proto__" = None.
Proof.
  induction l as [|x l IH] using rev_ind; [reflexivity |].
  rewrite foldl_app. simpl foldl. unfold obj_set at 1.
  case_bool_decide as Hproto; [exact IH |]. by rewrite lookup_insert_ne.
Qed.

Lemma not_found (index : list IndexEntry) (file : string) :
  (∀ e, e ∈ index → path e ≠ file) →
  List.find (λ stagedFile, bool_decide (path stagedFile = file)) index = None.
Proof.
  induction index as [|x index IH]; intros Hnone; [reflexivity |].
  simpl. rewrite bool_decide_eq_false_2 by (apply Hnone; left).
  apply IH. intros e He. apply Hnone. by right.
Qed.

(** X9.  What [status] compares for a file that is not staged: the digest
    of its text against the hash of the LAST entry with its path in the
    commit of [HEAD].  The file passes the test of "Changes not staged for
    commit" exactly when that entry is missing or has another hash, and
    (for a name that [Object.prototype] does not have) the test of
    "Untracked files" exactly when the entry is missing or has an empty
    hash. *)
Theorem status_compares_last_entry (index headCommitFiles : list IndexEntry)
    (worktree : list (string * string)) (file text : string) :
  file ≠ "__proto__" →
  last (filter (λ f, f.1 = file) worktree) = Some (file, text) →
  (∀ e, e ∈ index → path e ≠ file) →
  not_staged index (headFiles_of headCommitFiles) (currentFileHashes_of worktree) file
    = bool_decide (head_hash headCommitFiles file ≠ Some (hashObject text))
  ∧ (file ∉ Object_prototype →
     untracked index (headFiles_of headCommitFiles) file
       = bool_decide (head_hash headCommitFiles file = None
                      ∨ head_hash headCommitFiles file = Some "")).
Proof.
  intros Hproto Hlisted Hunstaged.
  unfold not_staged, untracked. rewrite (not_found _ _ Hunstaged).
  rewrite bool_decide_eq_false_2 by (intros [x Hx]; discriminate Hx). simpl negb.
  rewrite !andb_true_l.
  assert (obj_get (currentFileHashes_of worktree) file = Str (hashObject text)) as ->.
  { unfold obj_get, currentFileHashes_of.
    rewrite (dictionary_lookup fst (λ f, hashObject f.2)) by done.
    by rewrite Hlisted. }
  assert (headFiles_of headCommitFiles !! file = head_hash headCommitFiles file) as Hhf.
  { unfold headFiles_of, head_hash. by apply dictionary_lookup. }
  unfold obj_get. rewrite Hhf. split.
  - apply bool_decide_ext. destruct (head_hash headCommitFiles file) as [h|].
    + split; congruence.
    + case_bool_decide; split; congruence.
  - intros Hname. rewrite bool_decide_eq_false_2 by done.
    destruct (head_hash headCommitFiles file) as [h|]; unfold property_truthy.
    + destruct (decide (h = "")) as [-> | Hh].
      * rewrite bool_decide_eq_false_2 by (intros H; by apply H).
        symmetry. apply bool_decide_eq_true_2. by right.
      * rewrite bool_decide_eq_true_2 by done. symmetry.
        apply bool_decide_eq_false_2. intros [H | H]; congruence.
    + symmetry. apply bool_decide_eq_true_2. by left.
Qed.

(** X10.  A file whose name [Object.prototype] has ([constructor],
    [toString], ...) is never listed under "Untracked files" when the hashes
    in the commit of [HEAD] are not empty: [headFiles[file]] finds the
    inherited member.  A file named [__proto__] does not pass the test of
    "Changes not staged for commit" either. *)
Theorem status_prototype_names (index headCommitFiles : list IndexEntry)
    (worktree : list (string * string)) (file : string) :
  file ∈ Object_prototype →
  (∀ e, e ∈ headCommitFiles → hash e ≠ "") →
  untracked index (headFiles_of headCommitFiles) file = false
  ∧ (file = "__proto__" →
     not_staged index (headFiles_of headCommitFiles) (currentFileHashes_of worktree) file
       = false).
Proof.
  intros Hname Hhashes. split.
  - unfold untracked. apply andb_false_iff. right. apply negb_false_iff.
    unfold obj_get.
    destruct (headFiles_of headCommitFiles !! file) as [h|] eqn:Hhf;
      [| by rewrite bool_decide_eq_true_2].
    simpl. apply bool_decide_eq_true_2.
    destruct (decide (file = "__proto__")) as [-> | Hproto].
    + unfold headFiles_of in Hhf. by rewrite dictionary_proto in Hhf.
    + unfold headFiles_of in Hhf. rewrite dictionary_lookup in Hhf by done.
      destruct (last _) as [e|] eqn:Hlast; [| discriminate Hhf].
      injection Hhf as <-. apply Hhashes.
      apply last_Some_elem_of in Hlast. by apply list_elem_of_filter in Hlast as [_ ?].
  - intros ->. unfold not_staged. apply andb_false_iff. right.
    apply bool_decide_eq_false_2. intros Hne. apply Hne.
    unfold obj_get, headFiles_of, currentFileHashes_of.
    by rewrite !dictionary_proto.
Qed.

(** X11.  When [HEAD] holds a digest (an [object_name]) whose object is
    not in the store, [status] prints what [getCommitData] prints and ends
    with a [TypeError] (it reads [files] of [null]) before any section is
    printed; the repository is as before. *)
Theorem status_missing_head_commit (worktree : list (string * string)) (st : Repo)
    (h : string) :
  HEAD st = Some h → object_name h → objects st !! h = None →
  status worktree st = (st, [Console "undefined"], Thrown TypeError).
Proof.
  intros Hh [Hne _] Hobj. unfold status.
  rewrite (bind_silent _ _ st (index st)) by reflexivity.
  rewrite (bind_silent _ _ st (HEAD st)) by apply getCurrentHead_eq.
  apply bind_thrown. rewrite Hh, (truthy_Some h Hne).
  change (default "" (Some h)) with h.
  assert (getCommitData h st = (st, [Console "undefined"], Returned None)) as E
    by (rewrite getCommitData_eq, Hobj; reflexivity).
  rewrite (bind_returned _ _ st st _ None E). reflexivity.
Qed.

(** *** The commands that only read *)

Lemma read_only_ret {A} (a : A) : read_only (mret a).
Proof. intros st. split; [reflexivity | constructor]. Qed.

Lemma read_only_throw {A} (e : error) : read_only (throw e : M A).
Proof. intros st. split; [reflexivity | constructor]. Qed.

Lemma read_only_console (line : string) : read_only (console_log line).
Proof. intros st. split; [reflexivity | by repeat constructor]. Qed.

Lemma read_only_stdout (text : string) : read_only (emit (Stdout text)).
Proof. intros st. split; [reflexivity | by repeat constructor]. Qed.

Lemma read_only_bind {A B} (m : M A) (f : A → M B) :
  read_only m → (∀ a, read_only (f a)) → read_only (m ≫= f).
Proof.
  intros Hm Hf st. unfold mbind, M_bind.
  destruct (Hm st) as [Hst Ht]. destruct (m st) as [[st1 t1] r]. simpl in Hst, Ht.
  subst st1. destruct r as [a | e |]; [| done | done].
  destruct (Hf a st) as [Hst2 Ht2]. destruct (f a st) as [[st2 t2] r2].
  simpl in *. split; [done | by apply Forall_app].
Qed.

Lemma read_only_try_catch {A} (m h : M A) :
  read_only m → read_only h → read_only (try_catch m h).
Proof.
  intros Hm Hh st. unfold try_catch.
  destruct (Hm st) as [Hst Ht]. destruct (m st) as [[st1 t1] r]. simpl in Hst, Ht.
  subst st1. destruct r as [a | e |]; [done | | done].
  destruct (Hh st) as [Hst2 Ht2]. destruct (h st) as [[st2 t2] r2].
  simpl in *. split; [done | by apply Forall_app].
Qed.

Lemma read_only_for_of {A} (l : list A) (body : A → M unit) :
  (∀ x, read_only (body x)) → read_only (for_of l body).
Proof.
  intros Hbody. induction l as [|x l IH]; [apply read_only_ret |].
  rewrite for_of_cons. apply read_only_bind; [apply Hbody | intros _; exact IH].
Qed.

Lemma read_only_readObject digest : read_only (readObject digest).
Proof.
  intros st. unfold readObject. destruct (objects st !! digest); split;
    (reflexivity || constructor).
Qed.

Lemma read_only_getCurrentHead : read_only getCurrentHead.
Proof. intros st. rewrite getCurrentHead_eq. split; [reflexivity | constructor]. Qed.

Lemma read_only_getCommitData commitHash : read_only (getCommitData commitHash).
Proof.
  intros st. rewrite getCommitData_eq.
  destruct (objects st !! commitHash); split; (reflexivity || by repeat constructor).
Qed.

Lemma read_only_parse v : read_only (parse v).
Proof.
  destruct v as [text|]; [| apply read_only_ret]. unfold parse.
  destruct (JSON_parse text); (apply read_only_ret || apply read_only_throw).
Qed.

Lemma read_only_record v : read_only (record v).
Proof. destruct v; (apply read_only_ret || apply read_only_throw). Qed.

Lemma read_only_log_loop n : ∀ h, read_only (log_loop n h).
Proof.
  induction n as [|n IH]; intros h.
  - simpl. destruct (truthy h); [| apply read_only_ret].
    intros st. split; [reflexivity | constructor].
  - rewrite log_loop_S. destruct (truthy h); [| apply read_only_ret].
    apply read_only_bind; [apply read_only_readObject | intros text].
    apply read_only_bind; [apply read_only_parse | intros v].
    apply read_only_bind; [apply read_only_record | intros c].
    apply read_only_bind; [apply read_only_console | intros _]. apply IH.
Qed.

Lemma read_only_show_file commitData file : read_only (show_file commitData file).
Proof.
  unfold show_file.
  apply read_only_bind; [apply read_only_console | intros _].
  apply read_only_bind; [apply read_only_readObject | intros content].
  apply read_only_bind; [apply read_only_console | intros _].
  destruct (truthy (parent commitData)); [| apply read_only_console].
  apply read_only_bind; [apply read_only_getCommitData | intros text].
  apply read_only_bind; [apply read_only_parse | intros v].
  apply read_only_bind; [apply read_only_record | intros p].
  apply read_only_bind.
  - unfold getParentFileContent. destruct (List.find _ _); [| apply read_only_ret].
    apply read_only_bind; [apply read_only_readObject | intros x; apply read_only_ret].
  - intros [parentContent|]; [| apply read_only_console].
    apply read_only_bind; [apply read_only_console | intros _].
    apply read_only_for_of. intros part. unfold show_part.
    apply read_only_bind; [| intros _; apply read_only_console].
    destruct (added part), (removed part); apply read_only_stdout.
Qed.

(** X12.  [log], [showCommitDiff] and [status] leave the repository as it
    is, however they end, and put nothing but output in the trace: none of
    them writes an object, [HEAD], the index or the stash. *)
Theorem queries_read_only :
  (∀ n, read_only (log n))
  ∧ (∀ commitHash, read_only (showCommitDiff commitHash))
  ∧ (∀ worktree, read_only (status worktree)).
Proof.
  split; [| split].
  - intros n. unfold log.
    apply read_only_bind; [apply read_only_getCurrentHead | apply read_only_log_loop].
  - intros commitHash. unfold showCommitDiff.
    apply read_only_bind; [apply read_only_getCommitData | intros text].
    apply read_only_bind; [apply read_only_parse | intros v].
    assert (read_only (commitData ← record v;
                       console_log "Changes in the last commit are: ";;
                       for_of (files commitData) (show_file commitData))) as Hrest.
    { apply read_only_bind; [apply read_only_record | intros c].
      apply read_only_bind; [apply read_only_console | intros _].
      apply read_only_for_of, read_only_show_file. }
    destruct v; (exact Hrest || apply read_only_console).
  - intros worktree. unfold status.
    apply read_only_bind; [intros st; split; [reflexivity | constructor] | intros idx].
    apply read_only_bind; [apply read_only_getCurrentHead | intros h].
    apply read_only_bind.
    { destruct (truthy h); [| apply read_only_ret].
      apply read_only_bind; [apply read_only_getCommitData | intros text].
      apply read_only_bind; [apply read_only_parse | intros v].
      apply read_only_bind; [apply read_only_record | intros c; apply read_only_ret]. }
    intros hcf. cbv zeta.
    apply read_only_bind; [apply read_only_console | intros _].
    apply read_only_bind;
      [apply read_only_for_of; intros x; apply read_only_console | intros _].
    apply read_only_bind; [apply read_only_console | intros _].
    apply read_only_bind.
    { apply read_only_for_of. intros x.
      destruct (not_staged _ _ _ x); [apply read_only_console | apply read_only_ret]. }
    intros _. apply read_only_bind; [apply read_only_console | intros _].
    apply read_only_for_of. intros x.
    destruct (untracked _ _ x); [apply read_only_console | apply read_only_ret].
Qed.

(** *** How [showCommitDiff] ends *)

Lemma showCommitDiff_eq st commitHash text commitData :
  objects st !! commitHash = Some text →
  JSON_parse text = JCommit commitData →
  showCommitDiff commitHash st =
  (console_log "Changes in the last commit are: ";;
   for_of (files commitData) (show_file commitData)) st.
Proof.
  intros Hobj Hparse. unfold showCommitDiff.
  rewrite (bind_silent _ _ st (Some text))
    by (rewrite getCommitData_eq, Hobj; reflexivity).
  rewrite (bind_silent _ _ st (JCommit commitData)) by (by apply parse_commit).
  rewrite (bind_silent _ _ st commitData) by reflexivity. reflexivity.
Qed.

(** X13.  [showCommitDiff] on a digest (an [object_name]) without object
    prints what [getCommitData] prints and "Commit not found", and returns,
    whatever else the repository holds. *)
Theorem show_commit_not_found (st : Repo) (commitHash : string) :
  object_name commitHash →
  objects st !! commitHash = None →
  showCommitDiff commitHash st =
  (st, [Console "undefined"; Console "Commit not found"], Returned tt).
Proof.
  intros _ Hobj. unfold showCommitDiff.
  assert (getCommitData commitHash st = (st, [Console "undefined"], Returned None)) as E
    by (rewrite getCommitData_eq, Hobj; reflexivity).
  rewrite (bind_returned _ _ st st _ None E). reflexivity.
Qed.

Lemma show_file_first st commitData file content :
  truthy (parent commitData) = false →
  objects st !! hash file = Some content →
  show_file commitData file st =
  (st, [Console ("File: " +:+ path file); Console content; Console "First Commit"],
   Returned tt).
Proof.
  intros Hroot Hblob. unfold show_file. rewrite bind_console.
  rewrite (bind_silent _ _ st content)
    by (rewrite getFileContent_eq, Hblob; reflexivity).
  rewrite bind_console, Hroot. reflexivity.
Qed.

(** X14.  For a commit without parent whose blobs are in the store,
    [showCommitDiff] prints, for each entry of [files] in turn, the path,
    the content and "First Commit", and returns; no diff is printed. *)
Theorem show_first_commit (st : Repo) (commitHash text : string) (commitData : Commit)
    (contents : list string) :
  objects st !! commitHash = Some text →
  JSON_parse text = JCommit commitData →
  truthy (parent commitData) = false →
  Forall2 (λ file content, objects st !! hash file = Some content)
          (files commitData) contents →
  showCommitDiff commitHash st =
  (st,
   Console "Changes in the last commit are: "
   :: flat_map (λ fc, [Console ("File: " +:+ path fc.1); Console fc.2;
                       Console "First Commit"])
               (zip (files commitData) contents),
   Returned tt).
Proof.
  intros Hobj Hparse Hroot Hblobs.
  rewrite (showCommitDiff_eq _ _ _ _ Hobj Hparse), bind_console.
  assert (for_of (files commitData) (show_file commitData) st =
          (st, flat_map (λ fc, [Console ("File: " +:+ path fc.1); Console fc.2;
                                Console "First Commit"])
                        (zip (files commitData) contents), Returned tt)) as ->;
    [| reflexivity].
  induction Hblobs as [|file content l contents Hblob _ IH]; [reflexivity |].
  rewrite for_of_cons.
  rewrite (bind_returned _ _ st st _ tt (show_file_first _ _ _ _ Hroot Hblob)).
  rewrite IH. reflexivity.
Qed.

(** X15.  When the hash of an entry is a digest (an [object_name]) whose
    blob is missing, [show_file] prints the path and ends with the error of
    the failed read; when the blob is there but the parent is a digest
    without object, it prints path and content, then what [getCommitData]
    prints, and ends with a [TypeError] (it reads [files] of [null]).  A
    commit whose first entry makes [show_file] throw makes [showCommitDiff]
    end with the same error after its heading. *)
Theorem show_file_missing_object (st : Repo) (commitData : Commit) (file : IndexEntry) :
  (object_name (hash file) → objects st !! hash file = None →
     show_file commitData file st =
       (st, [Console ("File: " +:+ path file)], Thrown (ENOENT (hash file))))
  ∧ (∀ content p,
       objects st !! hash file = Some content →
       parent commitData = Some p → object_name p → objects st !! p = None →
       show_file commitData file st =
         (st, [Console ("File: " +:+ path file); Console content; Console "undefined"],
          Thrown TypeError))
  ∧ (∀ commitHash text rest st1 t e,
       objects st !! commitHash = Some text →
       JSON_parse text = JCommit commitData →
       files commitData = file :: rest →
       show_file commitData file st = (st1, t, Thrown e) →
       showCommitDiff commitHash st =
         (st1, Console "Changes in the last commit are: " :: t, Thrown e)).
Proof.
  split; [| split].
  - intros _ Hblob. unfold show_file. rewrite bind_console.
    rewrite (bind_thrown _ _ st st [] (ENOENT (hash file)));
      [reflexivity | by rewrite getFileContent_eq, Hblob].
  - intros content p Hblob Hp [Hne _] Hobj. unfold show_file. rewrite bind_console.
    rewrite (bind_silent _ _ st content)
      by (rewrite getFileContent_eq, Hblob; reflexivity).
    rewrite bind_console, Hp, (truthy_Some p Hne).
    change (default "" (Some p)) with p.
    assert (getCommitData p st = (st, [Console "undefined"], Returned None)) as E
      by (rewrite getCommitData_eq, Hobj; reflexivity).
    rewrite (bind_returned _ _ st st _ None E). reflexivity.
  - intros commitHash text rest st1 t e Hobj Hparse Hfiles Hthrown.
    rewrite (showCommitDiff_eq _ _ _ _ Hobj Hparse), bind_console, Hfiles, for_of_cons.
    rewrite (bind_thrown _ _ st st1 t e Hthrown). reflexivity.
Qed.

(** *** Where the walk of [log] ends *)

Lemma log_loop_0 h :
  log_loop 0 h = if truthy h then (λ st, (st, [], Running)) else mret tt.
Proof. reflexivity. Qed.

Lemma log_loop_walk st h l e :
  walk (objects st) h l e →
  ∀ n, log_loop (length l + n) h st =
       ((log_loop n e st).1.1,
        map (λ dc, Console (log_line dc.1 dc.2)) l ++ (log_loop n e st).1.2,
        (log_loop n e st).2).
Proof using parse_stringify.
  intros W. induction W as [h | d c l e Hd Hobj W IH]; intros n.
  - simpl. by destruct (log_loop n h st) as [[? ?] ?].
  - change (length ((d, c) :: l) + n) with (S (length l + n)).
    rewrite log_loop_S, (truthy_Some d Hd).
    change (default "" (Some d)) with d.
    rewrite (bind_silent _ _ st (JSON_stringify c))
      by (unfold readObject; rewrite Hobj; reflexivity).
    rewrite (bind_silent _ _ st (JCommit c))
      by (apply parse_commit, parse_stringify).
    rewrite (bind_silent _ _ st c) by reflexivity.
    rewrite bind_console, IH. reflexivity.
Qed.

Lemma log_loop_short st h l e :
  walk (objects st) h l e →
  ∀ n, n < length l → (log_loop n h st).2 = Running.
Proof using parse_stringify.
  intros W. induction W as [h | d c l e Hd Hobj W IH]; intros n Hn;
    [simpl in Hn; lia |].
  destruct n as [|n]; [by rewrite log_loop_0, (truthy_Some d Hd) |].
  rewrite log_loop_S, (truthy_Some d Hd). change (default "" (Some d)) with d.
  rewrite (bind_silent _ _ st (JSON_stringify c))
    by (unfold readObject; rewrite Hobj; reflexivity).
  rewrite (bind_silent _ _ st (JCommit c))
    by (apply parse_commit, parse_stringify).
  rewrite (bind_silent _ _ st c) by reflexivity.
  rewrite bind_console. simpl. apply IH. simpl in Hn. lia.
Qed.

(** X16.  When the parent links from [HEAD] lead, after the records of
    [l], to a digest (an [object_name]) without object, [log] prints the
    records of [l], newest first, and then ends with the error of the failed
    read. *)
Theorem log_stops_at_missing_parent (st : Repo) (l : list (string * Commit))
    (missing : string) :
  walk (objects st) (HEAD st) l (Some missing) →
  object_name missing →
  objects st !! missing = None →
  ∀ n, length l < n →
  log n st = (st, map (λ dc, Console (log_line dc.1 dc.2)) l, Thrown (ENOENT missing)).
Proof using parse_stringify.
  intros W [Hne _] Hobj n Hn. unfold log.
  rewrite (bind_silent _ _ st (HEAD st)) by apply getCurrentHead_eq.
  assert (∀ k, log_loop (S k) (Some missing) st = (st, [], Thrown (ENOENT missing))) as E.
  { intros k. rewrite log_loop_S, (truthy_Some missing Hne).
    change (default "" (Some missing)) with missing.
    apply bind_thrown. unfold readObject. by rewrite Hobj. }
  replace n with (length l + S (n - S (length l))) by lia.
  rewrite (log_loop_walk _ _ _ _ W), E. simpl. by rewrite app_nil_r.
Qed.

(** X17.  When the parent links from [HEAD] lead back to [HEAD], the loop
    of [log] does not end: whatever number of turns it is given, it is
    still running after them. *)
Theorem log_loops_on_cycle (st : Repo) (d : string) (l : list (string * Commit)) :
  HEAD st = Some d →
  l ≠ [] →
  walk (objects st) (Some d) l (Some d) →
  ∀ n, (log n st).2 = Running.
Proof using parse_stringify.
  intros Hhead Hl W n. unfold log.
  rewrite (bind_silent _ _ st (HEAD st)) by apply getCurrentHead_eq.
  rewrite Hhead.
  assert (0 < length l) as Hlen by (destruct l; [done | simpl; lia]).
  induction n as [n IH] using lt_wf_ind.
  destruct (decide (n < length l)) as [Hshort | Hlong].
  - by apply (log_loop_short _ _ _ _ W).
  - replace n with (length l + (n - length l)) by lia.
    rewrite (log_loop_walk _ _ _ _ W). simpl. apply IH. lia.
Qed.

(** *** What every history keeps *)

Lemma objects_stay_step c st k :
  is_Some (objects st !! k) → is_Some (objects (run_command c st).1.1 !! k).
Proof.
  intros Hk. destruct c as [file data | message now | now]; simpl run_command.
  - rewrite add_eq. simpl. rewrite lookup_insert. case_decide; [by eexists | done].
  - rewrite commit_eq. simpl. rewrite lookup_insert. case_decide; [by eexists | done].
  - rewrite stash_eq. done.
Qed.

Lemma objects_stay cmds : ∀ st k,
  is_Some (objects st !! k) → is_Some (objects (repo_after cmds st) !! k).
Proof.
  induction cmds as [|c cs IH]; intros st k Hk; [done |].
  rewrite repo_after_cons. by apply IH, objects_stay_step.
Qed.

Lemma resolves_stay cmds st l :
  resolves (objects st) l → resolves (objects (repo_after cmds st)) l.
Proof.
  unfold resolves. intros H. eapply Forall_impl; [exact H |].
  intros e. apply objects_stay.
Qed.

Lemma integrity_step c st :
  resolves (objects st) (index st) →
  Forall (λ s, resolves (objects st) (stash_files s)) (stash st) →
  resolves (objects (run_command c st).1.1) (index (run_command c st).1.1)
  ∧ Forall (λ s, resolves (objects (run_command c st).1.1) (stash_files s))
           (stash (run_command c st).1.1)
  ∧ Forall (λ dc, is_Some (objects (run_command c st).1.1 !! dc.1)
                  ∧ resolves (objects (run_command c st).1.1) (files dc.2))
           (commits_made [c] st).
Proof.
  intros Hidx Hst.
  pose proof (resolves_stay [c] st) as Hstay. rewrite repo_after_cons in Hstay.
  change (repo_after [] ?x) with x in Hstay.
  assert (Forall (λ s, resolves (objects (run_command c st).1.1) (stash_files s)) (stash st))
    as Hst1 by (eapply Forall_impl; [exact Hst | intros s; apply Hstay]).
  specialize (Hstay _ Hidx).
  destruct c as [file data | message now | now]; simpl run_command in *.
  - rewrite add_eq in *. simpl in *. split; [| split; [done | constructor]].
    apply Forall_app. split; [done |]. constructor; [| constructor].
    simpl. rewrite lookup_insert_eq. by eexists.
  - rewrite commit_eq in *. simpl in *. split; [constructor |]. split; [done |].
    constructor; [| constructor]. simpl. split; [| done].
    rewrite lookup_insert_eq. by eexists.
  - rewrite stash_eq in *. simpl in *. split; [constructor |]. split; [| constructor].
    apply Forall_app. split; [done |]. by constructor.
Qed.

Lemma integrity_run cmds : ∀ st,
  resolves (objects st) (index st) →
  Forall (λ s, resolves (objects st) (stash_files s)) (stash st) →
  resolves (objects (repo_after cmds st)) (index (repo_after cmds st))
  ∧ Forall (λ s, resolves (objects (repo_after cmds st)) (stash_files s))
           (stash (repo_after cmds st))
  ∧ Forall (λ dc, is_Some (objects (repo_after cmds st) !! dc.1)
                  ∧ resolves (objects (repo_after cmds st)) (files dc.2))
           (commits_made cmds st).
Proof.
  induction cmds as [|c cs IH]; intros st Hidx Hst.
  - split; [done |]. split; [done | constructor].
  - rewrite repo_after_cons, commits_made_cons.
    destruct (integrity_step c st Hidx Hst) as (Hidx1 & Hst1 & Hmade).
    destruct (IH _ Hidx1 Hst1) as (Hidx2 & Hst2 & Hmade2).
    split; [done |]. split; [done |]. apply Forall_app. split; [| done].
    eapply Forall_impl; [exact Hmade |]. intros dc [Hd Hfiles].
    split; [by apply objects_stay | by apply resolves_stay].
Qed.

(** X18.  After any sequence of commands from [init], every hash in the
    index, in an entry of the stash and in the [files] of a commit that was
    made names an object that is in the store, and so does the digest of
    every commit that was made. *)
Theorem history_resolves (cmds : list command) :
  let st := repo_after cmds init in
  resolves (objects st) (index st)
  ∧ Forall (λ s, resolves (objects st) (stash_files s)) (stash st)
  ∧ Forall (λ dc, is_Some (objects st !! dc.1) ∧ resolves (objects st) (files dc.2))
           (commits_made cmds init).
Proof. apply integrity_run; constructor. Qed.

Lemma named_by_digest_step c st :
  (∀ k v, objects st !! k = Some v → k = hashObject v) →
  ∀ k v, objects (run_command c st).1.1 !! k = Some v → k = hashObject v.
Proof.
  intros Hst k v. destruct c as [file data | message now | now]; simpl run_command.
  - rewrite add_eq. simpl. rewrite lookup_insert. case_decide; [congruence | apply Hst].
  - rewrite commit_eq. simpl. rewrite lookup_insert. case_decide; [congruence | apply Hst].
  - rewrite stash_eq. apply Hst.
Qed.

(** X19.  After any sequence of commands from [init], every object is
    stored under the digest of its own text; and from any repository, a
    sequence of commands removes no object. *)
Theorem objects_named_by_digest (cmds : list command) :
  (∀ k v, objects (repo_after cmds init) !! k = Some v → k = hashObject v)
  ∧ (∀ st k, is_Some (objects st !! k) → is_Some (objects (repo_after cmds st) !! k)).
Proof.
  split; [| intros st k; apply objects_stay].
  assert (∀ st, (∀ k v, objects st !! k = Some v → k = hashObject v) →
                ∀ k v, objects (repo_after cmds st) !! k = Some v → k = hashObject v) as H.
  { induction cmds as [|c cs IH]; intros st Hst; [exact Hst |].
    rewrite repo_after_cons. by apply IH, named_by_digest_step. }
  apply H. intros k v Hk. change (objects init) with (∅ : gmap string string) in Hk.
  by apply lookup_empty_Some in Hk.
Qed.

(** X20.  [HEAD] after a sequence of commands is the digest of the last
    commit made by them, and what it was when they made none: no command
    empties it or moves it back. *)
Theorem HEAD_names_last_commit (cmds : list command) (st : Repo) :
  HEAD (repo_after cmds st)
  = match last (commits_made cmds st) with
    | Some dc => Some dc.1
    | None => HEAD st
    end.
Proof.
  revert st. induction cmds as [|c cs IH]; intros st; [reflexivity |].
  rewrite repo_after_cons, commits_made_cons, IH, last_app.
  destruct (last (commits_made cs _)) as [dc|]; [reflexivity |].
  destruct c as [file data | message now | now]; simpl run_command.
  - by rewrite add_eq.
  - by rewrite commit_eq.
  - by rewrite stash_eq.
Qed.

Lemma index_pending cmds : ∀ st, index (repo_after cmds st) = pending cmds (index st).
Proof.
  induction cmds as [|c cs IH]; intros st; [reflexivity |].
  rewrite repo_after_cons, IH.
  destruct c as [file data | message now | now]; simpl run_command.
  - by rewrite add_eq.
  - by rewrite commit_eq.
  - by rewrite stash_eq.
Qed.

Lemma repo_after_app cmds1 cmds2 st :
  repo_after (cmds1 ++ cmds2) st = repo_after cmds2 (repo_after cmds1 st).
Proof.
  revert st. induction cmds1 as [|c cs IH]; intros st; [reflexivity |].
  simpl app. by rewrite !repo_after_cons, IH.
Qed.




Lemma stash_suffix cmds : ∀ st,
  ∃ suffix, stash (repo_after cmds st) = stash st ++ suffix
            ∧ length suffix = length (List.filter is_stash cmds).
Proof.
  induction cmds as [|c cs IH]; intros st.
  - exists []. by rewrite app_nil_r.
  - rewrite repo_after_cons. destruct (IH (run_command c st).1.1) as (suffix & E & L).
    rewrite E. destruct c as [file data | message now | now]; simpl run_command.
    + rewrite add_eq. by exists suffix.
    + rewrite commit_eq. by exists suffix.
    + rewrite stash_eq. simpl. exists (mkStash now (index st) :: suffix).
      rewrite <- (assoc (++)). split; [done | simpl; by rewrite L].
Qed.

(** X22.  The stash only grows: what it held stays at the front, each
    [stash] adds one entry, and that entry holds the index of the moment,
    the entries added since the last [commit] or [stash]. *)
Theorem stash_only_grows (before : list command) (st : Repo) (now : string) :
  stash st `prefix_of` stash (repo_after before st)
  ∧ length (stash (repo_after before st))
    = length (stash st) + length (List.filter is_stash before)
  ∧ stash (repo_after (before ++ [StashCmd now]) st)
    = stash (repo_after before st) ++ [mkStash now (pending before (index st))].
Proof.
  destruct (stash_suffix before st) as (suffix & E & L). split; [| split].
  - rewrite E. by exists suffix.
  - by rewrite E, length_app, L.
  - rewrite repo_after_app, repo_after_cons. simpl run_command.
    rewrite stash_eq, index_pending. reflexivity.
Qed.

Lemma written_step_stored c st text :
  text ∈ written (run_command c st).1.2 →
  objects (run_command c st).1.1 !! hashObject text = Some text.
Proof.
  destruct c as [file data | message now | now]; simpl run_command.
  - rewrite add_eq. simpl. intros ->%list_elem_of_singleton. apply lookup_insert_eq.
  - rewrite commit_eq. simpl. intros ->%list_elem_of_singleton. apply lookup_insert_eq.
  - rewrite stash_eq. simpl. intros H. by apply elem_of_nil in H.
Qed.

Lemma written_stored cmds : ∀ st text,
  text ∈ written (trace_of cmds st) →
  is_Some (objects (repo_after cmds st) !! hashObject text).
Proof.
  induction cmds as [|c cs IH]; intros st text Hin.
  - by apply elem_of_nil in Hin.
  - rewrite trace_of_cons, written_app in Hin. rewrite repo_after_cons.
    apply elem_of_app in Hin as [Hin | Hin]; [| by apply IH].
    apply objects_stay. rewrite (written_step_stored _ _ _ Hin). by eexists.
Qed.

Lemma add_written cmds : ∀ st file data,
  Add file data ∈ cmds → data ∈ written (trace_of cmds st).
Proof.
  induction cmds as [|c cs IH]; intros st file data Hin; [by apply elem_of_nil in Hin |].
  rewrite trace_of_cons, written_app. apply elem_of_app.
  apply elem_of_cons in Hin as [<- | Hin]; [left | right; by eapply IH].
  simpl run_command. rewrite add_eq. simpl. apply list_elem_of_here.
Qed.

Lemma commit_written cmds : ∀ st d c,
  (d, c) ∈ commits_made cmds st →
  d = hashObject (JSON_stringify c) ∧ JSON_stringify c ∈ written (trace_of cmds st).
Proof.
  induction cmds as [|x cs IH]; intros st d c Hin; [by apply elem_of_nil in Hin |].
  rewrite commits_made_cons in Hin. rewrite trace_of_cons, written_app.
  apply elem_of_app in Hin as [Hin | Hin].
  - destruct x as [file data | message now | now]; simpl in Hin;
      try by apply elem_of_nil in Hin.
    apply list_elem_of_singleton in Hin as [= -> ->]. split; [done |].
    apply elem_of_app. left. simpl run_command. rewrite commit_eq. simpl.
    apply list_elem_of_here.
  - destruct (IH _ _ _ Hin) as [Hd Hw]. split; [done |]. apply elem_of_app. by right.
Qed.

(** X23.  In a history from [init] in which no two different stored texts
    got the same digest, nothing stored is replaced: at the end the object
    under the digest of every text that was added is that text, and the
    object under the digest of every commit that was made is its record. *)
Theorem stored_texts_read_back (cmds : list command) :
  collision_free (written (trace_of cmds init)) →
  (∀ file data, Add file data ∈ cmds →
     objects (repo_after cmds init) !! hashObject data = Some data)
  ∧ (∀ d c, (d, c) ∈ commits_made cmds init →
     objects (repo_after cmds init) !! d = Some (JSON_stringify c)).
Proof using digest_length.
  intros Hfree. rewrite collision_free_spec in Hfree.
  destruct (run_invariant cmds init [] []) as [CA _].
  { intros k v Hk. change (objects init) with (∅ : gmap string string) in Hk.
    by apply lookup_empty_Some in Hk. }
  { by apply chain_end. }
  { exact Hfree. }
  simpl in CA.
  assert (∀ text, text ∈ written (trace_of cmds init) →
                  objects (repo_after cmds init) !! hashObject text = Some text) as Hback.
  { intros text Hin. destruct (written_stored _ _ _ Hin) as [v Hv].
    destruct (CA _ _ Hv) as [Hk Hvin]. rewrite Hv. f_equal. by apply Hfree. }
  split.
  - intros file data Hin. eapply Hback, add_written, Hin.
  - intros d c Hin. destruct (commit_written _ _ _ _ Hin) as [-> Hw]. by apply Hback.
Qed.

End GRoot.

(** ** The small runtime meets the assumptions *)

Lemma Demo_hex_length digits : ∀ x, String.length (Demo.hex digits x) = digits.
Proof. induction digits as [|d IH]; intros x; simpl; [done | by rewrite IH]. Qed.

Lemma Demo_digest_length text : String.length (Demo.hashObject text) = 40.
Proof. apply Demo_hex_length. Qed.

Lemma Demo_hex_digit_hex n : hex_char (Demo.hex_digit n) = true.
Proof.
  destruct n as [|p]; [reflexivity |].
  do 4 (destruct p as [p | p |]; try reflexivity).
Qed.

Lemma Demo_hex_all_hex digits : ∀ x, all_hex (Demo.hex digits x) = true.
Proof.
  induction digits as [|d IH]; intros x; simpl; [done |].
  by rewrite Demo_hex_digit_hex, IH.
Qed.

Lemma Demo_digest_object_name text : object_name (Demo.hashObject text).
Proof.
  split; [| split].
  - intros E. pose proof (Demo_digest_length text) as L. rewrite E in L. discriminate L.
  - rewrite Demo_digest_length. lia.
  - apply Demo_hex_all_hex.
Qed.

Lemma Demo_get_tally n rest : Demo.get_tally (Demo.tally n rest) = Some (n, rest).
Proof. induction n as [|n IH]; simpl; [done | by rewrite IH]. Qed.

Lemma Demo_take s rest : Demo.take (String.length s) (s +:+ rest) = Some (s, rest).
Proof. induction s as [|c s IH]; simpl; [done | by rewrite IH]. Qed.

Lemma Demo_get_string s rest : Demo.get_string (Demo.put_string s rest) = Some (s, rest).
Proof.
  unfold Demo.get_string, Demo.put_string. rewrite Demo_get_tally. apply Demo_take.
Qed.

Lemma Demo_get_entry e rest : Demo.get_entry (Demo.put_entry e rest) = Some (e, rest).
Proof.
  destruct e as [p h]. unfold Demo.get_entry, Demo.put_entry. simpl.
  by rewrite !Demo_get_string.
Qed.

Lemma Demo_get_n_entries l rest :
  Demo.get_n_entries (length l) (foldr Demo.put_entry rest l) = Some (l, rest).
Proof.
  induction l as [|e l IH]; simpl; [done |]. by rewrite Demo_get_entry, IH.
Qed.

Lemma Demo_get_parent p rest : Demo.get_parent (Demo.put_parent p rest) = Some (p, rest).
Proof. destruct p as [d|]; simpl; [by rewrite Demo_get_string | done]. Qed.

Lemma Demo_parse_stringify c : Demo.JSON_parse (Demo.JSON_stringify c) = JCommit c.
Proof.
  destruct c as [ts msg fs p]. unfold Demo.JSON_parse.
  rewrite bool_decide_eq_false_2 by discriminate.
  unfold Demo.JSON_stringify, Demo.get_commit, Demo.get_entries, Demo.put_entries.
  simpl. rewrite !Demo_get_string, Demo_get_tally, Demo_get_n_entries, Demo_get_parent.
  reflexivity.
Qed.

Example Demo_repo_after_history :
  repo_after Demo.hashObject Demo.JSON_stringify Demo.history init = Demo.repo.
Proof. vm_compute. reflexivity. Qed.

Lemma Demo_collision_free :
  collision_free Demo.hashObject
    (written (trace_of Demo.hashObject Demo.JSON_stringify Demo.history init)).
Proof.
  refine (@bool_decide_unpack _ (collision_free_dec Demo.hashObject _) _).
  vm_compute. exact I.
Qed.

(** ** The properties at work on concrete repositories *)

Lemma commit_snapshot_witness :
  ∃ st' : Repo,
    (commit Demo.hashObject Demo.JSON_stringify "first" "2024-01-01T00:00:00.000Z"
            (mkRepo ∅ (Some "") [mkEntry "a.txt" "h1"] [])).1.1 = st'
    ∧ index st' = []
    ∧ ∃ text c, objects st' !! Demo.hashObject text = Some text
                ∧ Demo.JSON_parse text = JCommit c
                ∧ files c = [mkEntry "a.txt" "h1"].
Proof.
  destruct (commit_snapshot Demo.hashObject Demo.JSON_stringify Demo.JSON_parse
              Demo_parse_stringify (mkRepo ∅ (Some "") [mkEntry "a.txt" "h1"] [])
              "first" "2024-01-01T00:00:00.000Z")
    as (st' & t & E & (text & c & Hobj & Hparse & Hfiles) & Hindex & _).
  exists st'. rewrite E. split; [reflexivity |]. split; [exact Hindex |].
  exists text, c. split; [| split; [exact Hparse | exact Hfiles]].
  assert (Some text = Some (Demo.JSON_stringify
            (mkCommit "2024-01-01T00:00:00.000Z" "first" [mkEntry "a.txt" "h1"] (Some ""))))
    as [= ->].
  { rewrite <- Hobj. injection E as <- _. simpl. by rewrite lookup_insert_eq. }
  exact Hobj.
Defined.

Lemma commit_empty_index_witness :
  index init = []
  ∧ ∃ st' t,
      commit Demo.hashObject Demo.JSON_stringify "empty" "2024-01-01T00:00:00.000Z" init
        = (st', t, Returned tt)
      ∧ is_Some (HEAD st').
Proof.
  split; [reflexivity |].
  destruct (commit_empty_index Demo.hashObject Demo.JSON_stringify init
              "empty" "2024-01-01T00:00:00.000Z" eq_refl)
    as (st' & t & E & _ & _ & Hhead).
  exists st', t. split; [exact E |]. rewrite Hhead. by eexists.
Defined.

Lemma add_content_addressed_witness :
  let st1 := (add Demo.hashObject "a.txt" "hello" init).1.1 in
  let st2 := (add Demo.hashObject "copy.txt" "hello" st1).1.1 in
  objects st2 = objects st1 ∧ size (objects st2) = 1.
Proof.
  destruct (add_content_addressed Demo.hashObject init "a.txt" "copy.txt"
              "hello" "hello" eq_refl)
    as (_ & _ & _ & Hsame & _ & _ & _ & _ & Hsize).
  split; [exact Hsame |]. apply Hsize. reflexivity.
Defined.

Lemma getParentFileContent_first_witness :
  getParentFileContent twice_added "a.txt" two_blobs
    = (two_blobs, [], Returned (Some "hello"))
  ∧ getParentFileContent twice_added "b.txt" two_blobs
    = (two_blobs, [], Returned None).
Proof.
  split.
  - apply (proj1 (getParentFileContent_first twice_added "a.txt" two_blobs)
             [] (mkEntry "a.txt" "h1") [mkEntry "a.txt" "h2"] "hello").
    + reflexivity.
    + reflexivity.
    + intros e He. by apply elem_of_nil in He.
    + reflexivity.
  - apply (proj2 (getParentFileContent_first twice_added "b.txt" two_blobs)).
    intros e He. apply list_elem_of_In in He. simpl in He.
    destruct He as [<- | [<- | []]]; discriminate.
Defined.

Lemma show_new_file_or_diff_witness :
  show_file Demo.JSON_parse Demo.diffLines Demo.chalk Demo.second_commit
            (mkEntry "b.txt" (Demo.hashObject "hi")) Demo.repo
  = (Demo.repo,
     [Console "File: b.txt"; Console "hi"; Console "New files in this commit"],
     Returned tt).
Proof.
  refine (proj1 (proj2 (show_new_file_or_diff Demo.JSON_parse Demo.diffLines Demo.chalk
            Demo.repo (Demo.hashObject (Demo.JSON_stringify Demo.second_commit))
            (Demo.JSON_stringify Demo.second_commit)
            Demo.second_commit Demo.first_commit
            (mkEntry "b.txt" (Demo.hashObject "hi"))
            (Demo.hashObject (Demo.JSON_stringify Demo.first_commit))
            (Demo.JSON_stringify Demo.first_commit) "hi"
            _ _ _ _ _ _ _)) _).
  - vm_compute. reflexivity.
  - apply Demo_parse_stringify.
  - reflexivity.
  - vm_compute. discriminate.
  - vm_compute. reflexivity.
  - apply Demo_parse_stringify.
  - vm_compute. reflexivity.
  - intros e He. apply list_elem_of_In in He. simpl in He.
    destruct He as [<- | []]. discriminate.
Defined.

Lemma parent_empty_iff_first_witness :
  ∃ c : Commit,
    parent c = HEAD (repo_after Demo.hashObject Demo.JSON_stringify
                       [Add "a.txt" "hello"; CommitCmd "first" "2024-01-01T00:00:00.000Z"] init)
    ∧ truthy (parent c) = true.
Proof.
  destruct (parent_empty_iff_first Demo.hashObject Demo.JSON_stringify Demo.JSON_parse
              Demo_digest_length Demo_parse_stringify
              [Add "a.txt" "hello"; CommitCmd "first" "2024-01-01T00:00:00.000Z"]
              "second" "2024-01-02T00:00:00.000Z")
    as (st' & t & text & c & _ & _ & _ & _ & Hparent & _ & Htruthy).
  exists c. split; [exact Hparent | apply Htruthy; reflexivity].
Defined.

Lemma log_walks_history_witness :
  log Demo.JSON_parse 2 Demo.repo
  = (Demo.repo,
     [Console (log_line (Demo.hashObject (Demo.JSON_stringify Demo.second_commit))
                        Demo.second_commit);
      Console (log_line (Demo.hashObject (Demo.JSON_stringify Demo.first_commit))
                        Demo.first_commit)],
     Returned tt).
Proof.
  destruct (log_walks_history Demo.hashObject Demo.JSON_stringify Demo.JSON_parse
              Demo_digest_length Demo_parse_stringify Demo.history Demo_collision_free)
    as (_ & Hlog & _).
  rewrite Demo_repo_after_history in Hlog.
  exact (Hlog 2 (le_n 2)).
Defined.

(** ** More properties at work on concrete inputs *)

Lemma init_keeps_existing_witness :
  HEAD_file (GRoot_init None (mkDisk (Some ∅) (Some "abc") None None)).1 = Some "abc".
Proof.
  apply (proj1 (proj2 (init_keeps_existing None (mkDisk (Some ∅) (Some "abc") None None)))).
  reflexivity.
Defined.

Lemma init_stops_at_HEAD_witness :
  index_file (GRoot_init (Some "build") (mkDisk (Some ∅) (Some "abc") None None)).1 = None
  ∧ stash_file (GRoot_init (Some "build") (mkDisk (Some ∅) (Some "abc") None None)).1 = None
  ∧ (GRoot_init (Some "build") (mkDisk (Some ∅) (Some "abc") None None)).2 = None.
Proof.
  exact (proj1 (init_stops_at_HEAD (Some "build") (mkDisk (Some ∅) (Some "abc") None None))
           "abc" eq_refl).
Defined.

Lemma init_fresh_witness :
  repo_of (GRoot_init (Some "build") (mkDisk None None None None)).1 = Some init
  ∧ (GRoot_init (Some "build") (mkDisk None None None None)).2 = Some "build".
Proof.
  exact (proj1 (init_fresh (Some "build") (mkDisk None None None None))
           eq_refl eq_refl eq_refl).
Defined.

Lemma getAllFiles_counts_witness :
  length (getAllFiles (λ _, false) "." project []) = count_files (Dir project).
Proof.
  exact (proj2 (getAllFiles_counts (λ _, false) "." project) (λ p, eq_refl)).
Defined.

Lemma Demo_head_files_restaged :
  head_files Demo.JSON_parse restaged (files Demo.second_commit).
Proof.
  apply (head_files_commit Demo.JSON_parse restaged
           (Demo.hashObject (Demo.JSON_stringify Demo.second_commit))
           (Demo.JSON_stringify Demo.second_commit) Demo.second_commit).
  - reflexivity.
  - vm_compute. discriminate.
  - vm_compute. reflexivity.
  - apply Demo_parse_stringify.
Qed.

Lemma status_all_staged_witness :
  status Demo.hashObject Demo.JSON_parse Demo.chalk [("a.txt", "changed")] restaged
  = (restaged,
     [Console "Changes to be committed:"; Console "  modified: a.txt";
      Console (LF +:+ "Changes not staged for commit:");
      Console (LF +:+ "Untracked files:")],
     Returned tt).
Proof.
  apply (status_all_staged Demo.hashObject Demo.JSON_parse Demo.chalk
           [("a.txt", "changed")] restaged (files Demo.second_commit)
           Demo_head_files_restaged).
  intros file Hfile. apply list_elem_of_singleton in Hfile as ->.
  exists (mkEntry "a.txt" (Demo.hashObject "hello")).
  split; [apply list_elem_of_here | reflexivity].
Defined.

Lemma status_compares_last_entry_witness :
  not_staged [] (headFiles_of (files Demo.first_commit))
             (currentFileHashes_of Demo.hashObject [("a.txt", "world")]) "a.txt" = true
  ∧ untracked [] (headFiles_of (files Demo.first_commit)) "a.txt" = false.
Proof.
  destruct (status_compares_last_entry Demo.hashObject [] (files Demo.first_commit)
              [("a.txt", "world")] "a.txt" "world") as [E1 E2].
  - discriminate.
  - reflexivity.
  - intros e He. by apply elem_of_nil in He.
  - rewrite E1, E2.
    + split; vm_compute; reflexivity.
    + intros Hin. apply list_elem_of_In in Hin. simpl in Hin.
      repeat (destruct Hin as [Hin | Hin]; [discriminate Hin |]). exact Hin.
Defined.

Lemma status_prototype_names_witness :
  untracked [] (headFiles_of []) "constructor" = false.
Proof.
  apply (proj1 (status_prototype_names Demo.hashObject [] [] [] "constructor"
                  (list_elem_of_here _ _)
                  (λ e He, False_ind _ (proj1 (elem_of_nil e) He)))).
Defined.

Lemma status_missing_head_commit_witness :
  status Demo.hashObject Demo.JSON_parse Demo.chalk [("a.txt", "hello")] dangling
  = (dangling, [Console "undefined"], Thrown TypeError).
Proof.
  apply (status_missing_head_commit Demo.hashObject Demo.JSON_parse Demo.chalk
           [("a.txt", "hello")] dangling "abc"); [reflexivity | | reflexivity].
  split; [discriminate | split; [simpl; lia | reflexivity]].
Defined.

Lemma show_commit_not_found_witness :
  showCommitDiff Demo.JSON_parse Demo.diffLines Demo.chalk "0000" Demo.repo
  = (Demo.repo, [Console "undefined"; Console "Commit not found"], Returned tt).
Proof.
  apply (show_commit_not_found Demo.JSON_parse Demo.diffLines Demo.chalk Demo.repo "0000").
  - split; [discriminate | split; [simpl; lia | reflexivity]].
  - vm_compute. reflexivity.
Defined.

Lemma show_first_commit_witness :
  showCommitDiff Demo.JSON_parse Demo.diffLines Demo.chalk
    (Demo.hashObject (Demo.JSON_stringify Demo.first_commit)) Demo.repo
  = (Demo.repo,
     [Console "Changes in the last commit are: "; Console "File: a.txt";
      Console "hello"; Console "First Commit"],
     Returned tt).
Proof.
  apply (show_first_commit Demo.JSON_parse Demo.diffLines Demo.chalk Demo.repo
           (Demo.hashObject (Demo.JSON_stringify Demo.first_commit))
           (Demo.JSON_stringify Demo.first_commit) Demo.first_commit ["hello"]).
  - vm_compute. reflexivity.
  - apply Demo_parse_stringify.
  - reflexivity.
  - constructor; [vm_compute; reflexivity | constructor].
Defined.

Lemma show_file_missing_object_witness :
  show_file Demo.JSON_parse Demo.diffLines Demo.chalk Demo.second_commit
            (mkEntry "b.txt" (Demo.hashObject "hi")) orphaned
  = (orphaned, [Console "File: b.txt"; Console "hi"; Console "undefined"],
     Thrown TypeError).
Proof.
  apply (proj1 (proj2 (show_file_missing_object Demo.JSON_parse Demo.diffLines Demo.chalk
                         orphaned Demo.second_commit
                         (mkEntry "b.txt" (Demo.hashObject "hi"))))
           "hi" (Demo.hashObject (Demo.JSON_stringify Demo.first_commit))).
  - vm_compute. reflexivity.
  - reflexivity.
  - apply Demo_digest_object_name.
  - vm_compute. reflexivity.
Defined.

Lemma log_stops_at_missing_parent_witness :
  log Demo.JSON_parse 5 orphaned
  = (orphaned,
     [Console (log_line (Demo.hashObject (Demo.JSON_stringify Demo.second_commit))
                        Demo.second_commit)],
     Thrown (ENOENT (Demo.hashObject (Demo.JSON_stringify Demo.first_commit)))).
Proof.
  apply (log_stops_at_missing_parent Demo.JSON_stringify Demo.JSON_parse
           Demo_parse_stringify orphaned
           [(Demo.hashObject (Demo.JSON_stringify Demo.second_commit), Demo.second_commit)]
           (Demo.hashObject (Demo.JSON_stringify Demo.first_commit))).
  - apply walk_step; [vm_compute; discriminate | vm_compute; reflexivity | apply walk_here].
  - apply Demo_digest_object_name.
  - vm_compute. reflexivity.
  - simpl. lia.
Defined.

Lemma log_loops_on_cycle_witness :
  (log Demo.JSON_parse 7 looping).2 = Running.
Proof.
  apply (log_loops_on_cycle Demo.JSON_stringify Demo.JSON_parse Demo_parse_stringify
           looping "loop"
           [("loop", mkCommit "2024-01-01T00:00:00.000Z" "again" [] (Some "loop"))]).
  - reflexivity.
  - discriminate.
  - apply walk_step; [discriminate | vm_compute; reflexivity | apply walk_here].
Defined.

Lemma stored_texts_read_back_witness :
  objects (repo_after Demo.hashObject Demo.JSON_stringify Demo.history init)
    !! Demo.hashObject "hello" = Some "hello".
Proof.
  apply (proj1 (stored_texts_read_back Demo.hashObject Demo.JSON_stringify
                  Demo_digest_length Demo.history Demo_collision_free) "a.txt" "hello").
  apply list_elem_of_here.
Defined.

Lemma untracked_also_not_staged_witness :
  not_staged [] ∅
    (foldl (λ acc f, obj_set acc f.1 (Demo.hashObject f.2)) ∅ [("a.txt", "hello")])
    "a.txt" = true.
Proof.
  apply (untracked_also_not_staged Demo.hashObject Demo_digest_length [] ∅
           [("a.txt", "hello")] "a.txt");
    [discriminate | apply list_elem_of_here | reflexivity].
Defined.
